(** * Reranking engine of mtc2413-searcher.py: model and verified properties

    The file embeds the functions of [mtc2413-searcher.py] and proves the
    properties its specification states about them.

    Numbers.  Python's [int] is [Z] or [nat]; Python's [float] (IEEE-754
    binary64) is idealised as a real number of [R]: [math.exp] is [exp],
    [math.log] is [ln] on positive arguments and raises [ValueError]
    elsewhere, [/] raises [ZeroDivisionError] on a zero divisor.  Rounding,
    overflow and the non-finite floats are outside this model.

    Strings.  A Python [str] is a [string] whose characters stand for the
    code points below 256.

    Effects.  Exceptions are the [Raise] results of [result]; the mutable
    objects ([term_cache], the searcher's history of calls) are the state of
    the monad [M], which keeps its state when an exception is raised, as
    Python does.

    Output.  What [main] prints on the standard output is the list of
    [RunLine]s its model returns, a score being the number that is printed
    and not its rendering with four decimals; the messages on the standard
    error, the command line and the opening of the index are outside this
    model. *)

From Stdlib Require Import Reals Lra Lia ZArith List Ascii String Bool.
From Stdlib Require Import Factorial.
From Stdlib Require Import Sorted Permutation.
From stdpp Require Import base option list gmap strings.

Local Open Scope R_scope.

(** ** Exceptions and results *)

(** [SearcherError] stands for whatever the retrieval back end raises. *)
Inductive pyexn : Type :=
  | ZeroDivisionError
  | ValueError
  | SearcherError.

Inductive result (A : Type) : Type :=
  | Ok (a : A)
  | Raise (e : pyexn).
Arguments Ok {A} a.
Arguments Raise {A} e.

Definition rbind {A B : Type} (r : result A) (k : A -> result B) : result B :=
  match r with
  | Ok a => k a
  | Raise e => Raise e
  end.

Notation "'let!' x ':=' r 'in' k" := (rbind r (fun x => k))
  (at level 10, x name, r at level 100, k at level 200).

(** ** Python arithmetic on floats *)

#[global] Instance Rlt_decision (a b : R) : Decision (a < b) := Rlt_dec a b.
#[global] Instance Rle_decision (a b : R) : Decision (a <= b) := Rle_dec a b.
#[global] Instance Req_decision : EqDecision R := Req_dec_T.

Module Py.

(** [a / b] *)
Definition div (a b : R) : result R :=
  if decide (b = 0) then Raise ZeroDivisionError else Ok (a / b).

(** [math.log(a)] *)
Definition log (a : R) : result R :=
  if decide (0 < a) then Ok (ln a) else Raise ValueError.

(** [math.exp(a)] *)
Definition exp (a : R) : R := Rtrigo_def.exp a.

(** [int(a)] on a float: truncation toward zero. *)
Definition int (a : R) : Z :=
  if decide (0 <= a) then Int_part a else (- Int_part (- a))%Z.

End Py.

(** ** Module constants (lines 12-16) *)

Definition c : R := 1.
Definition alpha : R := 5 / 10.
Definition tau_x : R := 6.
Definition tau_y : R := 65.
Definition lambda_exp : R := 5 / 10.

(** ** compute_normalized_tf (lines 34-37) *)

Definition compute_normalized_tf (tf doc_len : nat) (mean_tf : R)
  : result (R * R) :=
  let! X := (if decide (0 < mean_tf)
             then let! a := Py.log (1 + INR tf) in
                  let! b := Py.log (c + mean_tf) in
                  Py.div a b
             else Ok 0) in
  let! Y := (if (0 <? doc_len)%nat
             then let! q := Py.div 1000 (INR doc_len) in
                  let! l := Py.log (1 + q) in
                  Ok (INR tf * l)
             else Ok 0) in
  Ok (X, Y).

(** ** truncated_exp_score (lines 39-45) *)

Definition truncated_exp_score (x tau lambda_ : R) : result R :=
  if bool_decide (0 < x) && bool_decide (x < tau / 2) then
    Py.div (1 - Py.exp (- lambda_ * x)) (1 - Py.exp (- lambda_ * tau))
  else if decide (x <= tau) then
    Py.div x tau
  else
    Ok 0.

(** ** Python string methods *)

Module PyStr.

(** [str.isspace] on one character, for the code points below 256:
    the ASCII controls 9-13 and 28-31, the space, NEL (133) and the
    no-break space (160). *)
Definition is_space (a : ascii) : bool :=
  match nat_of_ascii a with
  | 9 | 10 | 11 | 12 | 13 | 28 | 29 | 30 | 31 | 32 | 133 | 160 => true
  | _ => false
  end%nat.

Fixpoint lstrip (s : string) : string :=
  match s with
  | String a s' => if is_space a then lstrip s' else s
  | EmptyString => EmptyString
  end.

Definition rstrip (s : string) : string :=
  String.rev (lstrip (String.rev s)).

(** [s.strip()] *)
Definition strip (s : string) : string := rstrip (lstrip s).

(** [s.startswith(p)] *)
Definition startswith (p s : string) : bool := String.prefix p s.

(** [s[n:]] *)
Fixpoint drop (n : nat) (s : string) : string :=
  match n, s with
  | O, _ => s
  | S n', String _ s' => drop n' s'
  | S _, EmptyString => EmptyString
  end.

(** [s.replace(old, new)] for a non-empty [old]: every occurrence, left
    to right, without overlap.  [skip] counts the characters of a matched
    occurrence still to pass over. *)
Fixpoint replace_go (old new : string) (skip : nat) (s : string) : string :=
  match s with
  | EmptyString => EmptyString
  | String a s' =>
      match skip with
      | S k => replace_go old new k s'
      | O =>
          if String.prefix old s
          then new +:+ replace_go old new (String.length old - 1) s'
          else String a (replace_go old new O s')
      end
  end.

Definition replace (old new s : string) : string := replace_go old new O s.

(** [s.split()]: the maximal runs of non-space characters.  [cur] is the
    run being read, last character first. *)
Fixpoint split_go (cur : option string) (s : string) : list string :=
  match s with
  | EmptyString => option_list (String.rev <$> cur)
  | String a s' =>
      if is_space a
      then option_list (String.rev <$> cur) ++ split_go None s'
      else split_go (Some (String a (default EmptyString cur))) s'
  end.

Definition split (s : string) : list string := split_go None s.

(** Iterating over a text file: the lines, each with its line feed. *)
Fixpoint readlines_go (cur : string) (s : string) : list string :=
  match s with
  | EmptyString =>
      match cur with EmptyString => [] | _ => [String.rev cur] end
  | String a s' =>
      if Ascii.eqb a "010"
      then String.rev (String a cur) :: readlines_go EmptyString s'
      else readlines_go (String a cur) s'
  end.

Definition readlines (s : string) : list string := readlines_go EmptyString s.

(** Truth value of a [str] or [None]. *)
Definition truthy (o : option string) : bool :=
  match o with
  | Some (String _ _) => true
  | _ => false
  end.

End PyStr.

(** ** A dict in insertion order: [d[k] = v] *)

Fixpoint dict_set {V : Type} (k : string) (v : V) (d : list (string * V))
  : list (string * V) :=
  match d with
  | [] => [(k, v)]
  | (k', v') :: d' =>
      if decide (k' = k) then (k, v) :: d' else (k', v') :: dict_set k v d'
  end.

(** ** parse_fire_queries (lines 18-31) *)

Record parser_state : Type := MkParser {
  queries : list (string * string);
  qid : option string;
  title : option string
}.

Definition parse_line (st : parser_state) (line : string) : parser_state :=
  let line := PyStr.strip line in
  if PyStr.startswith "<num>" line then
    MkParser (queries st)
             (Some (PyStr.strip
                      (PyStr.replace "</num>" ""
                         (PyStr.replace "<num>" "" line))))
             (title st)
  else if PyStr.startswith "<title>" line then
    MkParser (queries st) (qid st)
             (Some (PyStr.strip (PyStr.drop (String.length "<title>") line)))
  else if PyStr.startswith "</top>" line
          && PyStr.truthy (qid st) && PyStr.truthy (title st) then
    MkParser (dict_set (default "" (qid st)) (default "" (title st))
                (queries st))
             None None
  else st.

Definition parse_lines (lines : list string) : parser_state :=
  fold_left parse_line lines (MkParser [] None None).

Definition parse_fire_queries (file : string) : list (string * string) :=
  queries (parse_lines (PyStr.readlines file)).

Definition LF : string := String "010" EmptyString.

Definition unlines (ls : list string) : string :=
  fold_right (fun l acc => l +:+ LF +:+ acc) EmptyString ls.


(** ** The state-and-exception monad *)

Definition M (St A : Type) : Type := St -> result A * St.

Definition ret {St A : Type} (a : A) : M St A := fun st => (Ok a, st).

Definition bind {St A B : Type} (m : M St A) (k : A -> M St B) : M St B :=
  fun st =>
    match m st with
    | (Ok a, st') => k a st'
    | (Raise e, st') => (Raise e, st')
    end.

Definition lift {St A : Type} (r : result A) : M St A := fun st => (r, st).

Definition gets {St A : Type} (f : St -> A) : M St A :=
  fun st => (Ok (f st), st).

Definition modify {St : Type} (f : St -> St) : M St unit :=
  fun st => (Ok tt, f st).

(** [try: m except: h]; what [m] did to the state before raising stays. *)
Definition try_except {St A : Type} (m : M St A) (h : pyexn -> M St A)
  : M St A :=
  fun st =>
    match m st with
    | (Ok a, st') => (Ok a, st')
    | (Raise e, st') => h e st'
    end.

Notation "'let*' x ':=' m 'in' k" := (bind m (fun x => k))
  (at level 10, x name, m at level 100, k at level 200).

(** ** The retrieval capability (pyserini's LuceneSearcher) *)

Record Hit : Type := MkHit { docid : string; score : R }.

(** What the code uses of a searcher: [search(q, k)] and [doc(docid).raw()],
    which yields [None] for a stored document without raw content and raises
    when the document cannot be fetched. *)
Record Searcher (St : Type) : Type := MkSearcher {
  search : string -> nat -> M St (list Hit);
  doc_raw : string -> M St (option string)
}.
Arguments search {St} _ _ _.
Arguments doc_raw {St} _ _.

(** What [rerank] uses of its [idf_calculator]. *)
Record IdfCalculator (St : Type) : Type := MkIdfCalculator {
  get_idf : string -> M St R
}.
Arguments get_idf {St} _ _.

(** ** list.sort(key=..., reverse=True)

    CPython reverses the list, sorts it stably in ascending order comparing
    keys with [<] only, and reverses the result.  The stable ascending sort
    is written here as an insertion sort; on totally ordered keys every
    stable sort returns the same list ([sort_reverse_characterised]). *)

Section Sort.
Context {A : Type} (key : A -> R).

Fixpoint insert_sorted (x : A) (l : list A) : list A :=
  match l with
  | [] => [x]
  | y :: l' =>
      if decide (key y < key x) then y :: insert_sorted x l' else x :: l
  end.

Fixpoint stable_sort (l : list A) : list A :=
  match l with
  | [] => []
  | x :: l' => insert_sorted x (stable_sort l')
  end.

Definition sort_reverse (l : list A) : list A := rev (stable_sort (rev l)).
End Sort.

(** ** rerank (lines 72-108) *)

(** Lines 82-84: [tf_map] is a [defaultdict(int)], and [tf_map[word] += 1]
    reads 0 for a word not yet counted. *)
Definition count_words (doc_words : list string) : gmap string nat :=
  fold_left (fun tf_map word => <[word := S (tf_map !!! word)]> tf_map)
            doc_words ∅.

(** [sum(...)] over integers. *)
Definition sum_list (l : list nat) : nat := fold_right Nat.add O l.

(** Lines 86-87: [query_terms] and [mean_tf]. *)
Definition mean_query_tf (tf_map : gmap string nat) (query : string)
  : result R :=
  let query_terms :=
    filter (fun term => is_Some (tf_map !! term)) (PyStr.split query) in
  match query_terms with
  | [] => Ok 0
  | _ :: _ =>
      Py.div (INR (sum_list (map (fun term => tf_map !!! term) query_terms)))
             (INR (length (PyStr.split query)))
  end.

Section Rerank.
Context {St : Type}.

(** Lines 90-100: the loop over the query's terms, [score] being the
    running total. *)
Fixpoint score_terms (idf_calculator : IdfCalculator St)
    (tf_map : gmap string nat) (doc_len : nat) (mean_tf : R)
    (terms : list string) (score : R) : M St R :=
  match terms with
  | [] => ret score
  | term :: rest =>
      let tf := default O (tf_map !! term) in
      if (tf =? 0)%nat then
        score_terms idf_calculator tf_map doc_len mean_tf rest score
      else
        let* XY := lift (compute_normalized_tf tf doc_len mean_tf) in
        let* f_xt := lift (truncated_exp_score (fst XY) tau_x lambda_exp) in
        let* f_yt := lift (truncated_exp_score (snd XY) tau_y lambda_exp) in
        let* idf := get_idf idf_calculator term in
        score_terms idf_calculator tf_map doc_len mean_tf rest
          (score + idf * (alpha * f_xt + (1 - alpha) * f_yt))
  end.

(** Lines 77-102: the body of the [try] for one hit. *)
Definition score_document (query : string) (hit : Hit)
    (searcher : Searcher St) (idf_calculator : IdfCalculator St)
  : M St (string * R) :=
  let* raw := doc_raw searcher (docid hit) in
  let content := default EmptyString raw in
  let doc_words := PyStr.split content in
  let doc_len := length doc_words in
  let tf_map := count_words doc_words in
  let* mean_tf := lift (mean_query_tf tf_map query) in
  let* score :=
    score_terms idf_calculator tf_map doc_len mean_tf (PyStr.split query) 0 in
  ret (docid hit, score).

(** Lines 75-105: a hit whose processing raises is skipped (the message
    printed on the standard error is not modelled). *)
Fixpoint score_hits (query : string) (hits : list Hit)
    (searcher : Searcher St) (idf_calculator : IdfCalculator St)
    (doc_scores : list (string * R)) : M St (list (string * R)) :=
  match hits with
  | [] => ret doc_scores
  | hit :: rest =>
      let* doc_scores' :=
        try_except
          (let* entry := score_document query hit searcher idf_calculator in
           ret (doc_scores ++ [entry]))
          (fun _ => ret doc_scores) in
      score_hits query rest searcher idf_calculator doc_scores'
  end.

(** Lines 107-108. *)
Definition rerank (query : string) (hits : list Hit)
    (searcher : Searcher St) (idf_calculator : IdfCalculator St)
  : M St (list (string * R)) :=
  let* doc_scores := score_hits query hits searcher idf_calculator [] in
  ret (sort_reverse snd doc_scores).

End Rerank.

(** ** FallbackIDFCalculator (lines 47-70) *)

(** The mutable state of a run with the fallback calculator: the searches
    issued to the index so far, and the two fields of the calculator
    object. *)
Record world : Type := MkWorld {
  calls : list (string * nat);
  doc_count : Z;
  term_cache : gmap string R
}.

(** The index behind the searcher.  The answer to a search may depend on
    the searches issued before it, so that a call may fail and a later one
    succeed. *)
Record Index : Type := MkIndex {
  answer : list (string * nat) -> string -> nat -> result (list Hit);
  stored_raw : string -> result (option string)
}.

Definition LuceneSearcher (ix : Index) : Searcher world :=
  {| search q k := fun w =>
       (answer ix (calls w) q k,
        MkWorld (calls w ++ [(q, k)]) (doc_count w) (term_cache w));
     doc_raw d := lift (stored_raw ix d) |}.

Module FallbackIDFCalculator.
Section Methods.
Variable searcher : Searcher world.

(** Lines 53-58. *)
Definition _estimate_doc_count : M world Z :=
  try_except
    (let* hits := search searcher "the" 1 in
     match hits with
     | hit :: _ => ret (Py.int (score hit))
     | [] => ret 1000000%Z
     end)
    (fun _ => ret 1000000%Z).

(** Lines 48-51. *)
Definition __init__ : M world unit :=
  let* n := _estimate_doc_count in
  let* _ := modify (fun w => MkWorld (calls w) n (term_cache w)) in
  modify (fun w => MkWorld (calls w) (doc_count w) ∅).

(** Lines 60-70. *)
Definition get_idf (term : string) : M world R :=
  let* cache := gets term_cache in
  match cache !! term with
  | Some idf => ret idf
  | None =>
      try_except
        (let* hits := search searcher term 100 in
         let df := length hits in
         let* n := gets doc_count in
         let* idf :=
           lift (let! q := Py.div (IZR (n + 1)) (IZR (Z.of_nat df + 1)) in
                 Py.log q) in
         let* _ := modify (fun w =>
           MkWorld (calls w) (doc_count w) (<[term := idf]> (term_cache w))) in
         ret idf)
        (fun _ => ret 0)
  end.

Definition calculator : IdfCalculator world := MkIdfCalculator world get_idf.
End Methods.
End FallbackIDFCalculator.

(** ** main: the loop over the queries (lines 133-141) *)

(** One line of the run file: [qid Q0 docid rank score mtc2413].  The
    score is kept as the number that is printed; its rendering with four
    decimals is not modelled. *)
Record RunLine : Type := MkRunLine {
  line_qid : string;
  line_docid : string;
  line_rank : nat;
  line_score : R
}.

(** [enumerate(l, start)] *)
Fixpoint enumerate {A : Type} (l : list A) (start : nat) : list (nat * A) :=
  match l with
  | [] => []
  | x :: l' => (start, x) :: enumerate l' (S start)
  end.

(** Lines 137-138: the lines printed for one query. *)
Definition print_ranking (qid : string) (reranked : list (string * R))
  : list RunLine :=
  map (fun entry =>
         MkRunLine qid (fst (snd entry)) (fst entry) (snd (snd entry)))
      (enumerate (take 1000 reranked) 1).

Section Main.
Context {St : Type}.
Variables (searcher : Searcher St) (idf_calculator : IdfCalculator St).

(** Lines 134-141: the body of the loop.  Nothing is printed before both
    calls have returned; a query whose processing raises prints nothing on
    the standard output (the message on the standard error is not
    modelled). *)
Definition process_query (qid query_text : string) : M St (list RunLine) :=
  try_except
    (let* bm25_hits := search searcher query_text 2000 in
     let* reranked := rerank query_text bm25_hits searcher idf_calculator in
     ret (print_ranking qid reranked))
    (fun _ => ret []).

End Main.


(** * Vocabulary of the properties *)

Ltac run_monad := unfold bind, ret, lift, try_except, gets, modify.

(** ** Document statistics *)

(** The number of times [w] stands in [doc_words]. *)
Definition occurrences (doc_words : list string) (w : string) : nat :=
  count_occ string_dec doc_words w.

(** The query's tokens that occur in the document, repetitions kept. *)
Definition present_terms (doc_words : list string) (query : string)
  : list string :=
  filter (fun term => term ∈ doc_words) (PyStr.split query).

(** The mean query-term frequency, spelled with [occurrences]. *)
Definition mean_tf_of (doc_words : list string) (query : string) : R :=
  match present_terms doc_words query with
  | [] => 0
  | _ :: _ =>
      INR (sum_list (map (occurrences doc_words)
                         (present_terms doc_words query)))
      / INR (length (PyStr.split query))
  end.

(** The value of the transform on its exponential branch. *)
Definition exponential_branch (x tau : R) : R :=
  (1 - exp (- lambda_exp * x)) / (1 - exp (- lambda_exp * tau)).

(** ** Order *)

Definition descending {A : Type} (key : A -> R) (l : list A) : Prop :=
  StronglySorted (fun a b => key b <= key a) l.

Definition ascending {A : Type} (key : A -> R) (l : list A) : Prop :=
  StronglySorted (fun a b => key a <= key b) l.

(** [a] stands before [b] in [l]. *)
Definition before {A : Type} (a b : A) (l : list A) : Prop :=
  exists l1 l2 l3, l = l1 ++ a :: l2 ++ b :: l3.

(** ** The fallback calculator *)

(** The retrieval contract: a search returns at most [k] hits. *)
Definition respects_k (ix : Index) : Prop :=
  forall history q k hits, answer ix history q k = Ok hits ->
                           (length hits <= k)%nat.

Definition idf_formula (total : Z) (df : nat) : R :=
  ln (IZR (total + 1) / IZR (Z.of_nat df + 1)).

(** Every cached value was computed by the formula from at most 100 hits. *)
Definition cache_sound (w : world) : Prop :=
  forall term v, term_cache w !! term = Some v ->
    exists df, (df <= 100)%nat /\ (0 < doc_count w + 1)%Z
               /\ v = idf_formula (doc_count w) df.

(** The world after the search for [term] was issued. *)
Definition searched (term : string) (k : nat) (w : world) : world :=
  MkWorld (calls w ++ [(term, k)]) (doc_count w) (term_cache w).

(** The world after [term_cache[term] = idf]. *)
Definition stored (term : string) (idf : R) (w : world) : world :=
  MkWorld (calls w) (doc_count w) (<[term := idf]> (term_cache w)).

(** [w'] has the document count of [w] and every cache entry of [w]. *)
Definition extends (w w' : world) : Prop :=
  doc_count w' = doc_count w /\ term_cache w ⊆ term_cache w'.

(** A computation that leaves the document count alone and only adds to the
    cache, whether it returns or raises. *)
Definition cache_monotone {A : Type} (m : M world A) : Prop :=
  forall w r w', m w = (r, w') -> extends w w'.

(** Successive lookups, as [rerank] issues them. *)
Fixpoint get_idf_all (searcher : Searcher world) (terms : list string)
  : M world (list R) :=
  match terms with
  | [] => ret []
  | term :: rest =>
      let* idf := FallbackIDFCalculator.get_idf searcher term in
      let* idfs := get_idf_all searcher rest in
      ret (idf :: idfs)
  end.

(** ** Partial sums of the series of [exp (- y)], in Horner form *)

Definition exp_neg_upper (y : R) : R :=
  1 - y * (1 - y / 2 * (1 - y / 3 * (1 - y / 4 * (1 - y / 5 * (1 - y / 6 *
      (1 - y / 7 * (1 - y / 8 * (1 - y / 9 * (1 - y / 10))))))))).

Definition exp_neg_lower (y : R) : R :=
  1 - y * (1 - y / 2 * (1 - y / 3 * (1 - y / 4 * (1 - y / 5 * (1 - y / 6 *
      (1 - y / 7 * (1 - y / 8 * (1 - y / 9 * (1 - y / 10 *
      (1 - y / 11)))))))))).

(** ** Scores *)

(** The sum of the counts of [tf_map]. *)
Definition total_count (tf_map : gmap string nat) : nat :=
  map_fold (fun _ n acc => (n + acc)%nat) O tf_map.

(** The calculator returns for every term, in every state. *)
Definition idf_never_raises {St : Type} (idf_calculator : IdfCalculator St)
  : Prop :=
  forall term st, exists idf st',
    get_idf idf_calculator term st = (Ok idf, st').

(** The calculator is a table of weights: it reads no state and writes
    none. *)
Definition idf_table {St : Type} (weight : string -> R)
    (idf_calculator : IdfCalculator St) : Prop :=
  forall term st, get_idf idf_calculator term st = (Ok (weight term), st).

(** The searcher fetches the content of every document, in every state. *)
Definition content_always_fetched {St : Type} (searcher : Searcher St)
  : Prop :=
  forall d st, exists raw st', doc_raw searcher d st = (Ok raw, st').

(** The sum of a list of numbers. *)
Definition sum_R (l : list R) : R := fold_right Rplus 0 l.

(** In every state the content of [d] is fetched and holds no token of
    [query]. *)
Definition unrelated {St : Type} (searcher : Searcher St) (query d : string)
  : Prop :=
  forall st, exists raw st',
    doc_raw searcher d st = (Ok raw, st')
    /\ Forall (fun term => term ∉ PyStr.split (default EmptyString raw))
              (PyStr.split query).

(** ** The index *)

(** The index answers every search. *)
Definition always_answers (ix : Index) : Prop :=
  forall history q k, exists hits, answer ix history q k = Ok hits.

(** ** Topic files *)




(** The character [a] occurs in [s]. *)
Fixpoint contains (a : ascii) (s : string) : bool :=
  match s with
  | EmptyString => false
  | String b s' => Ascii.eqb b a || contains a s'
  end.

(** A text that fits on one line: no line feed and no carriage return. *)
Definition one_line (s : string) : bool :=
  negb (contains "010" s) && negb (contains "013" s).

(** A line that [parse_fire_queries] passes over. *)
Definition other_line (line : string) : bool :=
  one_line line
  && negb (PyStr.startswith "<num>" (PyStr.strip line))
  && negb (PyStr.startswith "<title>" (PyStr.strip line))
  && negb (PyStr.startswith "</top>" (PyStr.strip line)).

(** A topic as the track distributes it: identifier, title, and further
    lines (description, narrative, blank lines). *)
Record Topic : Type := MkTopic {
  topic_num : string;
  topic_title : string;
  topic_rest : list string
}.

(** The lines of a topic and the file of a list of topics, every line
    ended by a line feed. *)
Definition topic_lines (t : Topic) : list string :=
  ["<top>";
   "<num>" +:+ topic_num t +:+ "</num>";
   "<title>" +:+ topic_title t +:+ "</title>"]
  ++ topic_rest t ++ ["</top>"].

Definition render (topics : list Topic) : string :=
  unlines (concat (map topic_lines topics)).

(** The identifier and the title fit on one line, the identifier has no
    ["<"] and is not blank, and none of the further lines is one the parser
    reacts to. *)
Definition well_formed (t : Topic) : bool :=
  one_line (topic_num t)
  && negb (contains "<" (topic_num t))
  && negb (String.eqb (PyStr.strip (topic_num t)) "")
  && one_line (topic_title t)
  && forallb other_line (topic_rest t).

(** The entry the parser makes of a topic. *)
Definition parsed_entry (t : Topic) : string * string :=
  (PyStr.strip (topic_num t), PyStr.lstrip (topic_title t) +:+ "</title>").

(** ** The run file and the log of searches *)


(** A computation that, whether it returns or raises, leaves the document
    count alone, only adds to the cache, and adds to the log of searches
    only searches that satisfy [P]. *)
Definition logs {A : Type} (P : string * nat -> Prop) (m : M world A)
  : Prop :=
  forall w r w', m w = (r, w') ->
    extends w w'
    /\ exists new, calls w' = calls w ++ new /\ Forall P new.


(** * Concrete inputs *)

(** Two records: the first has an identifier and no title, the second a
    title and no identifier. *)
Definition stale_identifier_topics : string :=
  unlines ["<top>"; "<num>1</num>"; "</top>";
           "<top>"; "<title>foo"; "</top>"].

(** Two records: the first has a title and no identifier, the second an
    identifier and no title. *)
Definition stale_title_topics : string :=
  unlines ["<top>"; "<title>foo"; "</top>";
           "<top>"; "<num>2</num>"; "</top>"].

(** A calculator with the IDF values of the worked example, and a searcher
    that stores one content for every document; neither has any state. *)
Definition fixed_idf_calculator : IdfCalculator unit :=
  MkIdfCalculator unit
    (fun term => ret (if decide (term = "cat") then 2 else 15 / 10)).

Definition stored_searcher (content : option string) : Searcher unit :=
  MkSearcher unit (fun _ _ => ret []) (fun _ => ret content).

(** An index with two documents that honours the cap. *)
Definition two_document_index : Index :=
  MkIndex (fun _ _ k => Ok (take k [MkHit "d1" (75 / 10); MkHit "d2" 3]))
          (fun _ => Ok (Some "cat dog")).

(** An index whose first search raises and whose later searches find
    nothing. *)
Definition flaky_index : Index :=
  MkIndex (fun history _ _ =>
             match history with
             | [] => Raise SearcherError
             | _ :: _ => Ok []
             end)
          (fun _ => Ok None).

(** A calculator with a document count of 1,000,000 and an empty cache,
    before any search. *)
Definition fresh_world : world := MkWorld [] 1000000 ∅.

Fixpoint filler (n : nat) : string :=
  match n with
  | O => EmptyString
  | S n' => " the" +:+ filler n'
  end.

(** A document of 100 words with three "cat" and two "dog". *)
Definition cat_dog_document : string := "cat dog cat dog cat" +:+ filler 95.

(** The final score of the worked example: idf 2.0 for "cat", 1.5 for
    "dog". *)
Definition worked_example_score : R :=
  2 * (alpha * exponential_branch (ln 4 / ln (35 / 10)) tau_x
       + (1 - alpha) * exponential_branch (3 * ln 11) tau_y)
  + 15 / 10 * (alpha * exponential_branch (ln 3 / ln (35 / 10)) tau_x
               + (1 - alpha) * exponential_branch (2 * ln 11) tau_y).


(** * Properties *)

(** ** Sanity checks of the string model *)

Example split_cat_dog : PyStr.split "cat  dog " = ["cat"; "dog"].
Proof. reflexivity. Qed.

Example strip_line :
  PyStr.strip (" <title> rain  in spain " +:+ LF) = "<title> rain  in spain".
Proof. reflexivity. Qed.

Example replace_markup :
  PyStr.replace "</num>" "" (PyStr.replace "<num>" "" "<num> 12 </num>")
  = " 12 ".
Proof. reflexivity. Qed.

Example readlines_last_line :
  PyStr.readlines ("a" +:+ LF +:+ "b") = ["a" +:+ LF; "b"].
Proof. reflexivity. Qed.

Example parse_one_topic :
  parse_fire_queries
    (unlines ["<top>"; "<num>12</num>"; "<title> rain in spain"; "</top>"])
  = [("12", "rain in spain")].
Proof. vm_compute. reflexivity. Qed.

(** ** The saturation transform *)

Lemma exp_neg_lt_1 (y : R) : 0 < y -> exp (- y) < 1.
Proof.
  intros Hy. rewrite <- exp_0. apply exp_increasing. lra.
Qed.

Lemma saturation_denominator_nonzero (tau lambda_ : R) :
  0 < lambda_ * tau -> 1 - Py.exp (- lambda_ * tau) <> 0.
Proof.
  intros H. unfold Py.exp.
  replace (- lambda_ * tau) with (- (lambda_ * tau)) by ring.
  pose proof (exp_neg_lt_1 _ H). lra.
Qed.

Lemma truncated_exp_score_low (x tau lambda_ : R) :
  0 < x < tau / 2 -> 0 < lambda_ * tau ->
  truncated_exp_score x tau lambda_
  = Ok ((1 - exp (- lambda_ * x)) / (1 - exp (- lambda_ * tau))).
Proof.
  intros [H0 Hh] Hl. unfold truncated_exp_score.
  rewrite !bool_decide_eq_true_2 by assumption. simpl.
  unfold Py.div. destruct (decide _) as [E|_]; [|reflexivity].
  exfalso. exact (saturation_denominator_nonzero _ _ Hl E).
Qed.

Lemma truncated_exp_score_mid (x tau lambda_ : R) :
  tau <> 0 -> ~ (0 < x < tau / 2) -> x <= tau ->
  truncated_exp_score x tau lambda_ = Ok (x / tau).
Proof.
  intros Ht Hn Hx. unfold truncated_exp_score.
  assert (bool_decide (0 < x) && bool_decide (x < tau / 2) = false) as ->.
  { apply andb_false_iff.
    destruct (decide (0 < x)); [right|left];
      apply bool_decide_eq_false_2; lra. }
  destruct (decide (x <= tau)); [|lra].
  unfold Py.div. destruct (decide (tau = 0)); [lra|reflexivity].
Qed.

Lemma truncated_exp_score_high (x tau lambda_ : R) :
  0 <= tau -> tau < x -> truncated_exp_score x tau lambda_ = Ok 0.
Proof.
  intros Ht Hx. unfold truncated_exp_score.
  assert (bool_decide (0 < x) && bool_decide (x < tau / 2) = false) as ->.
  { apply andb_false_iff. right. apply bool_decide_eq_false_2. lra. }
  destruct (decide (x <= tau)); [lra|reflexivity].
Qed.

(** C6.  For every threshold [tau > 0] and every rate [lambda_], the
    transform returns 0 at [x = 0] and 1 at [x = tau]. *)
Theorem truncated_exp_score_endpoints (tau lambda_ : R) :
  0 < tau ->
  truncated_exp_score 0 tau lambda_ = Ok 0
  /\ truncated_exp_score tau tau lambda_ = Ok 1.
Proof.
  intros Ht. split.
  - rewrite truncated_exp_score_mid by lra. f_equal. field. lra.
  - rewrite truncated_exp_score_mid by lra. f_equal. field. lra.
Qed.

Lemma truncated_exp_score_endpoints_witness :
  truncated_exp_score 0 6 (5 / 10) = Ok 0
  /\ truncated_exp_score 6 6 (5 / 10) = Ok 1.
Proof. apply (truncated_exp_score_endpoints 6 (5 / 10)). lra. Defined.

Lemma inv_e_lt_half : / exp 1 < 1 / 2.
Proof.
  assert (H : 2 < exp 1) by (pose proof (exp_ineq1 1); lra).
  unfold Rdiv. rewrite Rmult_1_l.
  apply Rinv_lt_contravar; lra.
Qed.

(** On its exponential branch the curve with rate 1/2 stays above
    [1 - 1/e] from [x = 2] on, whatever the threshold. *)
Lemma exponential_branch_lower_bound (x tau : R) :
  0 < tau -> 2 <= x ->
  1 - / exp 1
  <= (1 - exp (- lambda_exp * x)) / (1 - exp (- lambda_exp * tau)).
Proof.
  intros Ht Hx. unfold lambda_exp.
  set (D := 1 - exp (- (5 / 10) * tau)).
  set (N := 1 - exp (- (5 / 10) * x)).
  assert (HD : 0 < D < 1).
  { unfold D. replace (- (5 / 10) * tau) with (- (tau / 2)) by field.
    pose proof (exp_neg_lt_1 (tau / 2)). pose proof (exp_pos (- (tau / 2))).
    lra. }
  assert (HN : 1 - / exp 1 <= N).
  { unfold N. rewrite <- exp_Ropp. destruct (Req_dec x 2) as [->|Hne].
    - replace (- (5 / 10) * 2) with (Ropp 1) by field. lra.
    - assert (exp (- (5 / 10) * x) < exp (Ropp 1))
        by (apply exp_increasing; lra).
      lra. }
  pose proof inv_e_lt_half as Hh.
  assert (HND : N <= N / D).
  { apply (Rmult_le_reg_r D); [lra|].
    unfold Rdiv. rewrite Rmult_assoc, Rinv_l by lra. nra. }
  lra.
Qed.

(** C1.  With the two parameter sets in use, (tau = 6, rate 1/2) and
    (tau = 65, rate 1/2), and for every input [x >= 0], the transform returns
    the exponential quotient on [0 < x < tau/2], returns [x / tau] on
    [tau/2 <= x <= tau] and returns 0 above [tau].  The two branches do not
    meet at [tau/2]: the exponential expression there differs from the linear
    one, and arbitrarily close below [tau/2] the returned value exceeds the
    value returned at [tau/2] by a fixed positive amount. *)
Theorem truncated_exp_score_piecewise (x tau : R) :
  0 <= x -> tau = tau_x \/ tau = tau_y ->
  (0 < x < tau / 2 ->
     truncated_exp_score x tau lambda_exp
     = Ok ((1 - exp (- lambda_exp * x)) / (1 - exp (- lambda_exp * tau))))
  /\ (tau / 2 <= x <= tau ->
        truncated_exp_score x tau lambda_exp = Ok (x / tau))
  /\ (tau < x -> truncated_exp_score x tau lambda_exp = Ok 0)
  /\ (1 - exp (- lambda_exp * (tau / 2))) / (1 - exp (- lambda_exp * tau))
     <> (tau / 2) / tau
  /\ exists eps, 0 < eps /\
       forall delta, 0 < delta ->
         exists x' v w, tau / 2 - delta < x' < tau / 2
           /\ truncated_exp_score x' tau lambda_exp = Ok v
           /\ truncated_exp_score (tau / 2) tau lambda_exp = Ok w
           /\ eps <= v - w.
Proof.
  intros Hx Htau.
  assert (Ht : 6 <= tau) by (unfold tau_x, tau_y in Htau; lra).
  assert (Hl : 0 < lambda_exp * tau) by (unfold lambda_exp; lra).
  pose proof inv_e_lt_half as Hh.
  repeat split.
  - intros H. apply truncated_exp_score_low; assumption.
  - intros H. apply truncated_exp_score_mid; lra.
  - intros H. apply truncated_exp_score_high; lra.
  - pose proof (exponential_branch_lower_bound (tau / 2) tau) as Hb.
    replace (tau / 2 / tau) with (1 / 2) by (field; lra). lra.
  - exists (1 / 2 - / exp 1). split; [lra|].
    intros delta Hd.
    set (x' := tau / 2 - Rmin delta 1 / 2).
    assert (Hm : 0 < Rmin delta 1 <= 1).
    { split; [apply Rmin_glb_lt; lra|apply Rmin_r]. }
    assert (Hm' : Rmin delta 1 <= delta) by apply Rmin_l.
    exists x', ((1 - exp (- lambda_exp * x')) / (1 - exp (- lambda_exp * tau))),
      (1 / 2).
    assert (Hx' : 2 <= x' < tau / 2) by (unfold x'; lra).
    repeat split.
    + unfold x'. lra.
    + apply Hx'.
    + apply truncated_exp_score_low; [lra|assumption].
    + rewrite truncated_exp_score_mid by lra. f_equal. field. lra.
    + pose proof (exponential_branch_lower_bound x' tau). lra.
Qed.

Lemma truncated_exp_score_piecewise_witness :
  truncated_exp_score 4 6 (5 / 10) = Ok (4 / 6)
  /\ truncated_exp_score 7 6 (5 / 10) = Ok 0.
Proof.
  split.
  - apply (truncated_exp_score_piecewise 4 6); [lra|left; reflexivity|].
    unfold Rdiv; lra.
  - apply (truncated_exp_score_piecewise 7 6); [lra|left; reflexivity|]. lra.
Defined.

(** ** The topic parser *)

Lemma end_marker_is_no_field (line : string) :
  PyStr.startswith "</top>" line = true ->
  PyStr.startswith "<num>" line = false
  /\ PyStr.startswith "<title>" line = false.
Proof.
  unfold PyStr.startswith.
  destruct line as [|a [|b line]]; cbn [String.prefix]; try discriminate.
  - destruct (ascii_dec "<" a); discriminate.
  - destruct (ascii_dec "<" a); [|discriminate].
    destruct (ascii_dec "/" b) as [<-|]; [|discriminate].
    intros _. destruct (ascii_dec "n" "/"); [discriminate|].
    destruct (ascii_dec "t" "/"); [discriminate|]. split; reflexivity.
Qed.

(** At the end marker, with an identifier and a title captured, the pair is
    emitted and both fields are cleared. *)
Lemma parse_line_end_marker_complete (st : parser_state) (line i t : string) :
  PyStr.startswith "</top>" (PyStr.strip line) = true ->
  qid st = Some i -> i <> EmptyString ->
  title st = Some t -> t <> EmptyString ->
  parse_line st line = MkParser (dict_set i t (queries st)) None None.
Proof.
  intros Hend Hq Hi Ht Htne. unfold parse_line.
  destruct (end_marker_is_no_field _ Hend) as [-> ->].
  rewrite Hend, Hq, Ht. destruct i; [congruence|]. destruct t; [congruence|].
  reflexivity.
Qed.

(** At the end marker, with the identifier or the title missing, nothing is
    emitted, and the captured fields stay as they are. *)
Lemma parse_line_end_marker_partial (st : parser_state) (line : string) :
  PyStr.startswith "</top>" (PyStr.strip line) = true ->
  PyStr.truthy (qid st) && PyStr.truthy (title st) = false ->
  parse_line st line = st.
Proof.
  intros Hend Hpart. unfold parse_line.
  destruct (end_marker_is_no_field _ Hend) as [-> ->].
  rewrite Hend. simpl. rewrite Hpart. reflexivity.
Qed.

(** C3.  A record with an identifier and no title is not dropped at its end
    marker: the identifier stays captured, and the parser pairs it with the
    title of the next record when that record has no identifier line.  In the
    same way a title left over from a record without identifier is paired
    with the identifier of a later record that has no title of its own. *)
Theorem parse_fire_queries_keeps_partial_record :
  parse_fire_queries stale_identifier_topics = [("1", "foo")]
  /\ qid (parse_lines (PyStr.readlines
            (unlines ["<top>"; "<num>1</num>"; "</top>"]))) = Some "1"
  /\ parse_fire_queries stale_title_topics = [("2", "foo")].
Proof. repeat split; vm_compute; reflexivity. Qed.

(** The same record followed by a well-formed one leaves no trace. *)
Example parse_fire_queries_partial_then_complete :
  parse_fire_queries
    (unlines ["<top>"; "<num>1</num>"; "</top>";
              "<top>"; "<num>2</num>"; "<title>bar"; "</top>"])
  = [("2", "bar")].
Proof. vm_compute. reflexivity. Qed.

(** ** Document statistics *)

Lemma count_words_fold (ws : list string) (m : gmap string nat) (w : string) :
  fold_left (fun tf_map word => <[word := S (tf_map !!! word)]> tf_map) ws m
    !! w
  = if decide (occurrences ws w = O) then m !! w
    else Some (m !!! w + occurrences ws w)%nat.
Proof.
  revert m. induction ws as [|x ws IH]; intros m; [reflexivity|].
  cbn [fold_left]. rewrite IH. unfold occurrences. cbn [count_occ].
  destruct (string_dec x w) as [->|Hne].
  - rewrite lookup_total_insert_eq, lookup_insert_eq.
    destruct (decide (count_occ string_dec ws w = 0%nat)) as [->|];
      destruct (decide _); try lia; f_equal; lia.
  - rewrite lookup_total_insert_ne, lookup_insert_ne by assumption.
    reflexivity.
Qed.

Lemma count_words_lookup (ws : list string) (w : string) :
  count_words ws !! w
  = if decide (occurrences ws w = O) then None else Some (occurrences ws w).
Proof.
  unfold count_words. rewrite count_words_fold, lookup_empty.
  destruct (decide _); [reflexivity|].
  rewrite lookup_total_empty. reflexivity.
Qed.

Lemma count_words_lookup_total (ws : list string) (w : string) :
  count_words ws !!! w = occurrences ws w.
Proof.
  rewrite lookup_total_alt, count_words_lookup.
  destruct (decide _) as [->|]; reflexivity.
Qed.

Lemma count_words_get (ws : list string) (w : string) :
  default O (count_words ws !! w) = occurrences ws w.
Proof.
  rewrite count_words_lookup. destruct (decide _) as [->|]; reflexivity.
Qed.

Lemma count_words_is_Some (ws : list string) (w : string) :
  is_Some (count_words ws !! w) <-> w ∈ ws.
Proof.
  rewrite count_words_lookup, list_elem_of_In. unfold occurrences.
  pose proof (count_occ_In string_dec ws w) as HIn.
  destruct (decide _) as [E|E].
  - split; [intros [? ?]; discriminate|]. intros H. apply HIn in H. lia.
  - split; [intros _; apply HIn; lia|]. intros _. eexists; reflexivity.
Qed.

Lemma count_words_empty : count_words [] = ∅.
Proof. reflexivity. Qed.

Lemma split_empty : PyStr.split EmptyString = [].
Proof. reflexivity. Qed.

(** ** The mean query-term frequency *)

Lemma filter_present_terms (doc_words terms : list string) :
  filter (fun term => is_Some (count_words doc_words !! term)) terms
  = filter (fun term => term ∈ doc_words) terms.
Proof.
  apply list_filter_iff. intros t. apply count_words_is_Some.
Qed.

Lemma filter_nil_Forall {A : Type} (P : A -> Prop) `{!forall a, Decision (P a)}
    (l : list A) :
  filter P l = [] <-> Forall (fun a => ~ P a) l.
Proof.
  induction l as [|a l IH]; [split; constructor|].
  rewrite filter_cons. destruct (decide (P a)) as [HP|HP].
  - split; [discriminate|]. inversion 1; contradiction.
  - rewrite IH. split; [constructor; assumption|]. inversion 1; assumption.
Qed.

Lemma mean_query_tf_value (doc_words : list string) (query : string) :
  mean_query_tf (count_words doc_words) query = Ok (mean_tf_of doc_words query).
Proof.
  unfold mean_query_tf, mean_tf_of, present_terms.
  rewrite filter_present_terms.
  destruct (filter _ (PyStr.split query)) as [|t l] eqn:E; [reflexivity|].
  unfold Py.div. destruct (decide _) as [Hz|_].
  - exfalso. destruct (PyStr.split query); [discriminate E|].
    apply (INR_eq _ 0) in Hz. discriminate Hz.
  - rewrite (map_ext _ (occurrences doc_words)); [reflexivity|].
    intros a. apply count_words_lookup_total.
Qed.

(** C4.  For a document whose content was fetched, the mean query-term
    frequency is one number for the whole document: the sum of the
    in-document frequencies of the query's tokens (taken with their
    repetitions) that occur in the document, divided by the number of all
    the query's tokens, and 0 when no token occurs.  That one number is what
    the loop over the terms receives. *)
Theorem mean_tf_once_per_document {St : Type} (query : string) (hit : Hit)
    (searcher : Searcher St) (idf_calculator : IdfCalculator St)
    (raw : option string) (st st' : St) :
  doc_raw searcher (docid hit) st = (Ok raw, st') ->
  let doc_words := PyStr.split (default EmptyString raw) in
  let terms := PyStr.split query in
  let present := filter (fun term => term ∈ doc_words) terms in
  exists mean_tf,
    mean_query_tf (count_words doc_words) query = Ok mean_tf
    /\ (present <> [] ->
        mean_tf = INR (sum_list (map (occurrences doc_words) present))
                  / INR (length terms))
    /\ (Forall (fun term => term ∉ doc_words) terms -> mean_tf = 0)
    /\ score_document query hit searcher idf_calculator st
       = (let* score := score_terms idf_calculator (count_words doc_words)
                          (length doc_words) mean_tf terms 0 in
          ret (docid hit, score)) st'.
Proof.
  intros Hraw doc_words terms present.
  exists (mean_tf_of doc_words query). repeat split.
  - apply mean_query_tf_value.
  - intros Hne. unfold mean_tf_of. fold present in Hne |- *.
    change (present_terms doc_words query) with present.
    destruct present; [congruence|reflexivity].
  - intros Hnone. unfold mean_tf_of, present_terms.
    apply (filter_nil_Forall (fun term => term ∈ doc_words)) in Hnone.
    fold terms. rewrite Hnone. reflexivity.
  - unfold score_document. run_monad. rewrite Hraw.
    fold doc_words. rewrite mean_query_tf_value. reflexivity.
Qed.

Lemma mean_tf_once_per_document_witness :
  exists mean_tf,
    mean_query_tf (count_words (PyStr.split "cat cat dog")) "cat dog bird"
    = Ok mean_tf
    /\ mean_tf = 3 / 3.
Proof.
  destruct (mean_tf_once_per_document "cat dog bird" (MkHit "d1" 1)
              (stored_searcher (Some "cat cat dog")) fixed_idf_calculator
              (Some "cat cat dog") tt tt eq_refl)
    as (mean_tf & Hm & Hv & _).
  exists mean_tf. split; [exact Hm|].
  rewrite Hv by (vm_compute; discriminate).
  match goal with
  | |- INR ?a / INR ?b = _ =>
      replace a with 3%nat by (vm_compute; reflexivity);
      replace b with 3%nat by (vm_compute; reflexivity)
  end.
  simpl. f_equal; ring.
Defined.

(** ** Terms that do not occur in the document *)

Section ZeroFrequency.
Context {St : Type}.
Variables (tf_map : gmap string nat) (doc_len : nat) (mean_tf : R).

Lemma score_terms_skip (idf_calculator : IdfCalculator St)
    (term : string) (rest : list string) (score : R) :
  default O (tf_map !! term) = O ->
  score_terms idf_calculator tf_map doc_len mean_tf (term :: rest) score
  = score_terms idf_calculator tf_map doc_len mean_tf rest score.
Proof. intros H. cbn [score_terms]. rewrite H. reflexivity. Qed.

Lemma score_terms_drop (idf_calculator : IdfCalculator St) (term : string)
    (earlier later : list string) (score : R) (st : St) :
  default O (tf_map !! term) = O ->
  score_terms idf_calculator tf_map doc_len mean_tf
    (earlier ++ term :: later) score st
  = score_terms idf_calculator tf_map doc_len mean_tf
      (earlier ++ later) score st.
Proof.
  intros H. revert score st.
  induction earlier as [|t earlier IH]; intros score st.
  - cbn [app]. rewrite score_terms_skip by assumption. reflexivity.
  - cbn [app score_terms].
    destruct (default O (tf_map !! t) =? 0)%nat; [apply IH|].
    run_monad.
    destruct (compute_normalized_tf _ _ _) as [XY|]; [|reflexivity].
    destruct (truncated_exp_score (fst XY) _ _); [|reflexivity].
    destruct (truncated_exp_score (snd XY) _ _); [|reflexivity].
    destruct (get_idf idf_calculator t st) as [[idf|] st1]; [|reflexivity].
    apply IH.
Qed.

Lemma score_terms_idf_irrelevant (idf1 idf2 : IdfCalculator St)
    (terms : list string) (score : R) (st : St) :
  (forall term, default O (tf_map !! term) <> O ->
                get_idf idf1 term = get_idf idf2 term) ->
  score_terms idf1 tf_map doc_len mean_tf terms score st
  = score_terms idf2 tf_map doc_len mean_tf terms score st.
Proof.
  intros Hagree. revert score st.
  induction terms as [|t terms IH]; intros score st; [reflexivity|].
  cbn [score_terms].
  destruct (default O (tf_map !! t) =? 0)%nat eqn:E; [apply IH|].
  apply Nat.eqb_neq in E. run_monad. rewrite (Hagree t E).
  destruct (compute_normalized_tf _ _ _) as [XY|]; [|reflexivity].
  destruct (truncated_exp_score (fst XY) _ _); [|reflexivity].
  destruct (truncated_exp_score (snd XY) _ _); [|reflexivity].
  destruct (get_idf idf2 t st) as [[idf|] st1]; [|reflexivity].
  apply IH.
Qed.
End ZeroFrequency.

(** When no term of the query occurs in the document the loop does
    nothing at all. *)
Lemma score_terms_all_absent {St : Type} (idf_calculator : IdfCalculator St)
    (tf_map : gmap string nat) (doc_len : nat) (mean_tf : R)
    (terms : list string) (score : R) (st : St) :
  Forall (fun term => default O (tf_map !! term) = O) terms ->
  score_terms idf_calculator tf_map doc_len mean_tf terms score st
  = (Ok score, st).
Proof.
  induction 1 as [|t terms Ht _ IH]; [reflexivity|].
  rewrite score_terms_skip by assumption. exact IH.
Qed.

(** C5.  A query term whose frequency in the document is 0 changes neither
    the running score nor the state: wherever it stands in the query, the
    loop over the terms (run with the document's mean, computed beforehand)
    gives the result and leaves the state, the IDF calculator's cache and
    the searcher's history included, that it gives without the term, so no
    IDF lookup is made for it; and the result is the same for any two
    calculators that agree on the other terms, whatever IDF they would give
    to this one. *)
Theorem zero_frequency_term_contributes_nothing {St : Type}
    (tf_map : gmap string nat) (doc_len : nat) (mean_tf : R) (term : string) :
  default O (tf_map !! term) = O ->
  (forall (idf_calculator : IdfCalculator St) earlier later score st,
     score_terms idf_calculator tf_map doc_len mean_tf
       (earlier ++ term :: later) score st
     = score_terms idf_calculator tf_map doc_len mean_tf
         (earlier ++ later) score st)
  /\ (forall (idf1 idf2 : IdfCalculator St) terms score st,
        (forall t, t <> term -> get_idf idf1 t = get_idf idf2 t) ->
        score_terms idf1 tf_map doc_len mean_tf terms score st
        = score_terms idf2 tf_map doc_len mean_tf terms score st).
Proof.
  intros Hzero. split.
  - intros. apply score_terms_drop. assumption.
  - intros idf1 idf2 terms score st Hagree.
    apply score_terms_idf_irrelevant. intros t Ht. apply Hagree.
    intros ->. contradiction.
Qed.

Lemma zero_frequency_term_contributes_nothing_witness :
  default O (count_words ["cat"] !! "dog") = O
  /\ forall score st,
       score_terms fixed_idf_calculator (count_words ["cat"]) 1 1
         (["cat"] ++ "dog" :: ["cat"]) score st
       = score_terms fixed_idf_calculator (count_words ["cat"]) 1 1
           (["cat"] ++ ["cat"]) score st.
Proof.
  split; [vm_compute; reflexivity|].
  intros score st.
  apply (zero_frequency_term_contributes_nothing (St := unit)
           (count_words ["cat"]) 1 1 "dog").
  vm_compute; reflexivity.
Defined.

(** ** The loop over the hits *)

Section Hits.
Context {St : Type}.
Variables (query : string) (searcher : Searcher St)
          (idf_calculator : IdfCalculator St).

(** The loop never raises; it extends the list it was given, and the
    documents it adds come in the order of the hits. *)
Lemma score_hits_total (hits : list Hit) (doc_scores : list (string * R))
    (st : St) :
  exists more st',
    score_hits query hits searcher idf_calculator doc_scores st
    = (Ok (doc_scores ++ more), st')
    /\ sublist (map fst more) (map docid hits).
Proof.
  revert doc_scores st.
  induction hits as [|hit hits IH]; intros doc_scores st.
  - exists [], st. cbn. run_monad. rewrite app_nil_r. split; constructor.
  - cbn [score_hits]. run_monad.
    destruct (score_document query hit searcher idf_calculator st)
      as [[[d s]|e] st1] eqn:E.
    + destruct (IH (doc_scores ++ [(d, s)]) st1) as (more & st' & Hm & Hs).
      exists ((d, s) :: more), st'. rewrite Hm, <- app_assoc.
      split; [reflexivity|].
      assert (d = docid hit) as ->.
      { unfold score_document in E. revert E. run_monad.
        destruct (doc_raw searcher (docid hit) st) as [[raw|] st2];
          [|discriminate].
        destruct (mean_query_tf _ _); [|discriminate].
        destruct (score_terms _ _ _ _ _ _ _) as [[sc|] st3];
          [|discriminate].
        intros [= <- _ _]. reflexivity. }
      cbn. constructor. exact Hs.
    + destruct (IH doc_scores st1) as (more & st' & Hm & Hs).
      exists more, st'. rewrite Hm. split; [reflexivity|].
      cbn. constructor. exact Hs.
Qed.

(** A hit whose processing raises adds nothing. *)
Lemma score_hits_skips_failure (hit : Hit) (rest : list Hit)
    (doc_scores : list (string * R)) (e : pyexn) (st st' : St) :
  score_document query hit searcher idf_calculator st = (Raise e, st') ->
  score_hits query (hit :: rest) searcher idf_calculator doc_scores st
  = score_hits query rest searcher idf_calculator doc_scores st'.
Proof.
  intros H. cbn [score_hits]. run_monad. rewrite H. reflexivity.
Qed.

Lemma score_document_raises_with_doc (hit : Hit) (e : pyexn) (st st' : St) :
  doc_raw searcher (docid hit) st = (Raise e, st') ->
  score_document query hit searcher idf_calculator st = (Raise e, st').
Proof.
  intros H. unfold score_document. run_monad. rewrite H. reflexivity.
Qed.
End Hits.

Lemma score_terms_empty_document {St : Type}
    (idf_calculator : IdfCalculator St) (doc_len : nat) (mean_tf : R)
    (terms : list string) (score : R) (st : St) :
  score_terms idf_calculator ∅ doc_len mean_tf terms score st
  = (Ok score, st).
Proof.
  induction terms as [|t terms IH]; [reflexivity|].
  cbn [score_terms]. rewrite lookup_empty. exact IH.
Qed.

Lemma mean_query_tf_empty_document (query : string) :
  mean_query_tf ∅ query = Ok 0.
Proof.
  unfold mean_query_tf.
  replace (filter _ (PyStr.split query)) with (@nil string); [reflexivity|].
  symmetry. apply (filter_nil_Forall (fun term => is_Some (_ !! term))).
  apply Forall_forall. intros t _. rewrite lookup_empty. apply is_Some_None.
Qed.

(** ** The final sort *)

Section SortFacts.
Context {A : Type} (key : A -> R).

Lemma insert_sorted_perm (x : A) (l : list A) :
  Permutation (insert_sorted key x l) (x :: l).
Proof.
  induction l as [|y l IH]; cbn [insert_sorted]; [reflexivity|].
  destruct (decide (key y < key x)); [|reflexivity].
  rewrite IH. apply perm_swap.
Qed.

Lemma stable_sort_perm (l : list A) : Permutation (stable_sort key l) l.
Proof.
  induction l as [|x l IH]; cbn [stable_sort]; [reflexivity|].
  rewrite insert_sorted_perm, IH. reflexivity.
Qed.

Lemma insert_sorted_ascending (x : A) (l : list A) :
  ascending key l -> ascending key (insert_sorted key x l).
Proof.
  unfold ascending. induction 1 as [|y l Hs IH Hy]; cbn [insert_sorted].
  - repeat constructor.
  - destruct (decide (key y < key x)) as [Hlt|Hge].
    + constructor; [exact IH|].
      apply Forall_forall. intros z Hz.
      rewrite insert_sorted_perm in Hz.
      apply elem_of_cons in Hz as [->|Hz]; [lra|].
      rewrite Forall_forall in Hy. apply Hy, Hz.
    + constructor; [constructor; assumption|].
      constructor; [lra|].
      apply Forall_forall. intros z Hz. rewrite Forall_forall in Hy.
      specialize (Hy z Hz). lra.
Qed.

Lemma stable_sort_ascending (l : list A) : ascending key (stable_sort key l).
Proof.
  induction l as [|x l IH]; cbn [stable_sort]; [constructor|].
  apply insert_sorted_ascending, IH.
Qed.

Lemma insert_sorted_filter (s : R) (x : A) (l : list A) :
  filter (fun a => key a = s) (insert_sorted key x l)
  = filter (fun a => key a = s) (x :: l).
Proof.
  induction l as [|y l IH]; cbn [insert_sorted]; [reflexivity|].
  destruct (decide (key y < key x)) as [Hlt|Hge]; [|reflexivity].
  rewrite filter_cons, IH, !filter_cons.
  destruct (decide (key y = s)), (decide (key x = s)); try reflexivity.
  lra.
Qed.

Lemma stable_sort_filter (s : R) (l : list A) :
  filter (fun a => key a = s) (stable_sort key l)
  = filter (fun a => key a = s) l.
Proof.
  induction l as [|x l IH]; cbn [stable_sort]; [reflexivity|].
  rewrite insert_sorted_filter, !filter_cons, IH. reflexivity.
Qed.

Lemma filter_rev (P : A -> Prop) `{!forall a, Decision (P a)} (l : list A) :
  filter P (rev l) = rev (filter P l).
Proof.
  induction l as [|x l IH]; [reflexivity|].
  cbn [rev]. rewrite filter_app, IH, !filter_cons, filter_nil.
  destruct (decide (P x)); cbn [rev]; [reflexivity|]. apply app_nil_r.
Qed.

Lemma descending_snoc (l : list A) (x : A) :
  descending key l -> Forall (fun y => key x <= key y) l ->
  descending key (l ++ [x]).
Proof.
  unfold descending. induction 1 as [|y l Hs IH Hy]; intros Hx; cbn [app].
  - repeat constructor.
  - inversion Hx as [|? ? Hyx Hx']; subst. constructor; [apply IH, Hx'|].
    apply Forall_app. split; [exact Hy|]. constructor; [exact Hyx|constructor].
Qed.

Lemma ascending_rev (l : list A) : ascending key l -> descending key (rev l).
Proof.
  unfold ascending. induction 1 as [|x l Hs IH Hx]; [constructor|].
  cbn [rev]. apply descending_snoc; [exact IH|].
  apply Forall_forall. intros y Hy. rewrite Forall_forall in Hx.
  apply Hx. apply list_elem_of_In, in_rev, list_elem_of_In, Hy.
Qed.

(** The sort returns a permutation of its input, in descending order of
    the keys, and keeps the input order among equal keys. *)
Lemma sort_reverse_perm (l : list A) : Permutation (sort_reverse key l) l.
Proof.
  unfold sort_reverse.
  rewrite <- Permutation_rev, stable_sort_perm, <- Permutation_rev.
  reflexivity.
Qed.

Lemma sort_reverse_descending (l : list A) :
  descending key (sort_reverse key l).
Proof. apply ascending_rev, stable_sort_ascending. Qed.

Lemma sort_reverse_stable (s : R) (l : list A) :
  filter (fun a => key a = s) (sort_reverse key l)
  = filter (fun a => key a = s) l.
Proof.
  unfold sort_reverse.
  rewrite filter_rev, stable_sort_filter, filter_rev, rev_involutive.
  reflexivity.
Qed.

(** The three properties determine the result: whatever stable sorting
    algorithm is run, on keys that are totally ordered it returns this
    list. *)
Lemma descending_stable_unique (l1 l2 : list A) :
  descending key l1 -> descending key l2 ->
  (forall s, filter (fun a => key a = s) l1
             = filter (fun a => key a = s) l2) ->
  l1 = l2.
Proof.
  assert (Hhead : forall x t m,
    descending key m ->
    filter (fun a => key a = key x) (x :: t)
    = filter (fun a => key a = key x) m ->
    exists y m', m = y :: m' /\ key x <= key y).
  { intros x t m Hm Hf. rewrite filter_cons in Hf.
    destruct (decide (key x = key x)) as [_|Hn]; [|contradiction].
    assert (Hin : x ∈ filter (fun a => key a = key x) m).
    { rewrite <- Hf. apply elem_of_cons. left. reflexivity. }
    apply list_elem_of_filter in Hin as [_ Hin].
    destruct m as [|y m']; [inversion Hin|].
    exists y, m'. split; [reflexivity|].
    apply elem_of_cons in Hin as [->|Hin]; [lra|].
    inversion Hm as [|? ? _ Hy]; subst.
    rewrite Forall_forall in Hy. apply Hy, Hin. }
  revert l2. induction l1 as [|x1 t1 IH]; intros l2 H1 H2 Hf.
  - destruct l2 as [|x2 t2]; [reflexivity|].
    specialize (Hf (key x2)). rewrite filter_nil, filter_cons in Hf.
    destruct (decide (key x2 = key x2)); [discriminate|contradiction].
  - destruct (Hhead x1 t1 l2 H2 (Hf (key x1))) as (x2 & t2 & -> & Hle).
    destruct (Hhead x2 t2 (x1 :: t1) H1 (eq_sym (Hf (key x2))))
      as (? & ? & [= <- <-] & Hge).
    assert (Hk : key x1 = key x2) by lra.
    pose proof (Hf (key x1)) as Hs. rewrite !filter_cons in Hs.
    destruct (decide (key x1 = key x1)) as [_|Hn]; [|contradiction].
    destruct (decide (key x2 = key x1)) as [_|Hn]; [|congruence].
    injection Hs as <- Hs. f_equal.
    inversion H1; inversion H2; subst. apply IH; try assumption.
    intros s. specialize (Hf s). rewrite !filter_cons in Hf.
    destruct (decide (key x1 = s)); [injection Hf as Hf|]; exact Hf.
Qed.

Lemma sort_reverse_characterised (l sorted : list A) :
  descending key sorted ->
  (forall s, filter (fun a => key a = s) sorted
             = filter (fun a => key a = s) l) ->
  sorted = sort_reverse key l.
Proof.
  intros Hd Hf. apply descending_stable_unique;
    [exact Hd|apply sort_reverse_descending|].
  intros s. rewrite Hf, sort_reverse_stable. reflexivity.
Qed.

Lemma filter_split (P : A -> Prop) `{!forall a, Decision (P a)}
    (l : list A) (x : A) (u v : list A) :
  filter P l = u ++ x :: v ->
  exists l1 l2, l = l1 ++ x :: l2 /\ filter P l1 = u /\ filter P l2 = v.
Proof.
  revert u. induction l as [|y l IH]; intros u Hf.
  - destruct u; discriminate.
  - rewrite filter_cons in Hf. destruct (decide (P y)) as [HP|HP].
    + destruct u as [|y' u]; cbn [app] in Hf.
      * injection Hf as -> <-. exists [], l. repeat split.
      * injection Hf as -> Hf. destruct (IH u Hf) as (l1 & l2 & -> & <- & <-).
        exists (y' :: l1), l2. rewrite filter_cons.
        destruct (decide (P y')); [repeat split|contradiction].
    + destruct (IH u Hf) as (l1 & l2 & -> & <- & <-).
      exists (y :: l1), l2. rewrite filter_cons.
      destruct (decide (P y)); [contradiction|repeat split].
Qed.

Lemma sort_reverse_keeps_order (l : list A) (a b : A) :
  key a = key b -> before a b l -> before a b (sort_reverse key l).
Proof.
  intros Hab (l1 & l2 & l3 & ->).
  pose proof (sort_reverse_stable (key a) (l1 ++ a :: l2 ++ b :: l3)) as Hf.
  set (P := fun x => key x = key a) in *.
  rewrite (filter_app P l1), (filter_cons P a), (filter_app P l2),
    (filter_cons P b) in Hf.
  destruct (decide (P a)) as [_|Hn]; [|exfalso; apply Hn; reflexivity].
  destruct (decide (P b)) as [_|Hn]; [|exfalso; apply Hn; symmetry; exact Hab].
  apply filter_split in Hf as (m1 & m2 & Hm & _ & Hf2).
  apply filter_split in Hf2 as (m3 & m4 & -> & _ & _).
  exists m1, m3, m4. exact Hm.
Qed.
End SortFacts.

Example sort_reverse_ties :
  sort_reverse snd [("d1"%string, 1); ("d2"%string, 2); ("d3"%string, 1)]
  = [("d2"%string, 2); ("d1"%string, 1); ("d3"%string, 1)].
Proof.
  unfold sort_reverse. cbn [rev app stable_sort insert_sorted snd].
  repeat (destruct (decide _); try lra; cbn [insert_sorted snd]).
  reflexivity.
Qed.

(** C7.  [rerank] always returns a list.  It is a reordering of the scored
    documents, which were collected in the order of the baseline candidates;
    it is in descending order of the final score; and of two entries with
    equal final scores, the one that came first in the baseline order comes
    first in the output. *)
Theorem rerank_sorted_stable {St : Type} (query : string) (hits : list Hit)
    (searcher : Searcher St) (idf_calculator : IdfCalculator St) (st : St) :
  exists doc_scores out st',
    score_hits query hits searcher idf_calculator [] st = (Ok doc_scores, st')
    /\ sublist (map fst doc_scores) (map docid hits)
    /\ rerank query hits searcher idf_calculator st = (Ok out, st')
    /\ Permutation out doc_scores
    /\ descending snd out
    /\ (forall s, filter (fun e => snd e = s) out
                  = filter (fun e => snd e = s) doc_scores)
    /\ (forall a b, snd a = snd b ->
                    before a b doc_scores -> before a b out).
Proof.
  destruct (score_hits_total query searcher idf_calculator hits [] st)
    as (doc_scores & st' & Hrun & Hsub).
  cbn [app] in Hrun.
  exists doc_scores, (sort_reverse snd doc_scores), st'.
  split; [exact Hrun|]. split; [exact Hsub|]. split.
  { unfold rerank. run_monad. rewrite Hrun. reflexivity. }
  split; [apply sort_reverse_perm|].
  split; [apply sort_reverse_descending|].
  split; [intros s; apply sort_reverse_stable|].
  intros a b. apply sort_reverse_keeps_order.
Qed.

(** C10.  When the content lookup of a candidate succeeds and yields no
    content, the document is scored as the empty text, of length 0 and with
    an empty term-frequency map: its entry has the score 0, the loop over
    the hits appends it and goes on, and it is in the list that [rerank]
    returns.  A candidate whose lookup raises is left out
    ([score_hits_skips_failure]). *)
Theorem raw_none_document_is_kept {St : Type} (query : string) (hit : Hit)
    (rest : list Hit) (searcher : Searcher St)
    (idf_calculator : IdfCalculator St) (st st' : St) :
  doc_raw searcher (docid hit) st = (Ok None, st') ->
  length (PyStr.split (default EmptyString None)) = O
  /\ count_words (PyStr.split (default EmptyString None)) = ∅
  /\ score_document query hit searcher idf_calculator st
     = (Ok (docid hit, 0), st')
  /\ (forall doc_scores,
        score_hits query (hit :: rest) searcher idf_calculator doc_scores st
        = score_hits query rest searcher idf_calculator
            (doc_scores ++ [(docid hit, 0)]) st')
  /\ exists out st'',
       rerank query (hit :: rest) searcher idf_calculator st = (Ok out, st'')
       /\ (docid hit, 0) ∈ out.
Proof.
  intros Hraw.
  assert (Hdoc : score_document query hit searcher idf_calculator st
                 = (Ok (docid hit, 0), st')).
  { unfold score_document. run_monad. rewrite Hraw. cbn [default].
    rewrite split_empty, count_words_empty, mean_query_tf_empty_document.
    rewrite score_terms_empty_document. reflexivity. }
  assert (Hstep : forall doc_scores,
    score_hits query (hit :: rest) searcher idf_calculator doc_scores st
    = score_hits query rest searcher idf_calculator
        (doc_scores ++ [(docid hit, 0)]) st').
  { intros doc_scores. cbn [score_hits]. run_monad. rewrite Hdoc. reflexivity. }
  split; [reflexivity|]. split; [reflexivity|].
  split; [exact Hdoc|]. split; [exact Hstep|].
  destruct (score_hits_total query searcher idf_calculator rest
              ([] ++ [(docid hit, 0)]) st') as (more & st'' & Hrun & _).
  exists (sort_reverse snd (([] ++ [(docid hit, 0)]) ++ more)), st''. split.
  - unfold rerank. run_monad. rewrite Hstep, Hrun. reflexivity.
  - rewrite sort_reverse_perm. cbn [app]. apply elem_of_cons. left. reflexivity.
Qed.

Lemma raw_none_document_is_kept_witness :
  exists out st'',
    rerank "cat dog" [MkHit "d1" 7; MkHit "d2" 5] (stored_searcher None)
      fixed_idf_calculator tt = (Ok out, st'')
    /\ ("d1"%string, 0) ∈ out.
Proof.
  destruct (raw_none_document_is_kept "cat dog" (MkHit "d1" 7) [MkHit "d2" 5]
              (stored_searcher None) fixed_idf_calculator tt tt eq_refl)
    as (_ & _ & _ & _ & Hout).
  exact Hout.
Defined.

(** ** The fallback IDF calculator *)

Lemma py_int_truncates (r : R) :
  (0 <= r -> 0 <= IZR (Py.int r) <= r /\ r < IZR (Py.int r) + 1)
  /\ (r < 0 -> r <= IZR (Py.int r) <= 0 /\ IZR (Py.int r) - 1 < r).
Proof.
  unfold Py.int. split; intros Hr; destruct (decide (0 <= r)); try lra.
  - destruct (base_Int_part r) as [H1 H2].
    assert (0 <= Int_part r)%Z.
    { apply Z.lt_succ_r, lt_IZR. rewrite succ_IZR. lra. }
    apply IZR_le in H. lra.
  - destruct (base_Int_part (- r)) as [H1 H2]. rewrite opp_IZR.
    assert (0 <= Int_part (- r))%Z.
    { apply Z.lt_succ_r, lt_IZR. rewrite succ_IZR. lra. }
    apply IZR_le in H. lra.
Qed.

Example py_int_positive : Py.int (75 / 10) = 7%Z.
Proof.
  destruct (py_int_truncates (75 / 10)) as [H _].
  destruct H as [[_ Hle] Hlt]; [lra|].
  assert (Py.int (75 / 10) < 8)%Z by (apply lt_IZR; lra).
  assert (6 < Py.int (75 / 10))%Z by (apply lt_IZR; lra).
  lia.
Qed.

Example py_int_negative : Py.int (- (75 / 10)) = (- 7)%Z.
Proof.
  destruct (py_int_truncates (- (75 / 10))) as [_ H].
  destruct H as [[Hle _] Hlt]; [lra|].
  assert (- 8 < Py.int (- (75 / 10)))%Z by (apply lt_IZR; lra).
  assert (Py.int (- (75 / 10)) < - 6)%Z by (apply lt_IZR; lra).
  lia.
Qed.

Lemma estimate_doc_count_value (ix : Index) (w : world) :
  FallbackIDFCalculator._estimate_doc_count (LuceneSearcher ix) w
  = (Ok match answer ix (calls w) "the" 1 with
        | Ok (hit :: _) => Py.int (score hit)
        | _ => 1000000%Z
        end,
     searched "the" 1 w).
Proof.
  unfold FallbackIDFCalculator._estimate_doc_count. run_monad.
  cbn [search LuceneSearcher].
  destruct (answer ix (calls w) "the" 1) as [[|hit hits]|e]; reflexivity.
Qed.

Lemma get_idf_cached (searcher : Searcher world) (term : string) (v : R)
    (w : world) :
  term_cache w !! term = Some v ->
  FallbackIDFCalculator.get_idf searcher term w = (Ok v, w).
Proof.
  intros H. unfold FallbackIDFCalculator.get_idf. run_monad.
  rewrite H. reflexivity.
Qed.

Lemma get_idf_miss (ix : Index) (term : string) (w : world) :
  term_cache w !! term = None ->
  FallbackIDFCalculator.get_idf (LuceneSearcher ix) term w
  = match answer ix (calls w) term 100 with
    | Ok hits =>
        if decide (0 < doc_count w + 1)%Z
        then (Ok (idf_formula (doc_count w) (length hits)),
              stored term (idf_formula (doc_count w) (length hits))
                (searched term 100 w))
        else (Ok 0, searched term 100 w)
    | Raise _ => (Ok 0, searched term 100 w)
    end.
Proof.
  intros H. unfold FallbackIDFCalculator.get_idf. run_monad. rewrite H.
  cbn [search LuceneSearcher].
  destruct (answer ix (calls w) term 100) as [hits|e]; [|reflexivity].
  cbn [doc_count]. unfold Py.div.
  assert (Hdf : 0 < IZR (Z.of_nat (length hits) + 1)).
  { apply IZR_lt. lia. }
  destruct (decide (IZR (Z.of_nat (length hits) + 1) = 0)) as [E|_]; [lra|].
  cbn [rbind]. unfold Py.log.
  destruct (decide (0 < doc_count w + 1)%Z) as [Hn|Hn].
  - apply IZR_lt in Hn.
    destruct (decide (0 < _ / _)) as [_|Hq]; [reflexivity|].
    exfalso. apply Hq. apply Rdiv_lt_0_compat; assumption.
  - destruct (decide (0 < _ / _)) as [Hq|_]; [|reflexivity].
    exfalso. assert (IZR (doc_count w + 1) <= 0) by (apply IZR_le; lia).
    apply (Rmult_lt_compat_r _ _ _ Hdf) in Hq.
    unfold Rdiv in Hq. rewrite Rmult_assoc, Rinv_l in Hq; lra.
Qed.

Lemma get_idf_returns (ix : Index) (term : string) (w : world) :
  exists v w',
    FallbackIDFCalculator.get_idf (LuceneSearcher ix) term w = (Ok v, w')
    /\ doc_count w' = doc_count w
    /\ term_cache w ⊆ term_cache w'.
Proof.
  destruct (term_cache w !! term) as [c|] eqn:Hc.
  - exists c, w. rewrite (get_idf_cached _ _ _ _ Hc).
    split; [reflexivity|split; reflexivity].
  - rewrite (get_idf_miss _ _ _ Hc).
    destruct (answer ix (calls w) term 100) as [hits|e];
      [destruct (decide _)|]; eexists _, _;
      (split; [reflexivity|split; [reflexivity|]]);
      cbn [term_cache stored searched]; try reflexivity.
    apply insert_subseteq, Hc.
Qed.

Lemma get_idf_keeps_cache_sound (ix : Index) (term : string) (w w' : world)
    (r : result R) :
  respects_k ix -> cache_sound w ->
  FallbackIDFCalculator.get_idf (LuceneSearcher ix) term w = (r, w') ->
  cache_sound w'.
Proof.
  intros Hk Hs. destruct (term_cache w !! term) as [c|] eqn:Hc.
  - rewrite (get_idf_cached _ _ _ _ Hc). intros [= _ <-]. exact Hs.
  - rewrite (get_idf_miss _ _ _ Hc).
    destruct (answer ix (calls w) term 100) as [hits|e] eqn:Ha;
      [destruct (decide _) as [Hn|Hn]|]; intros [= _ <-]; try exact Hs.
    intros t v. cbn [term_cache doc_count stored searched].
    destruct (decide (term = t)) as [->|Hne].
    + rewrite lookup_insert_eq. intros [= <-].
      exists (length hits). split; [exact (Hk _ _ _ _ Ha)|]. split; [exact Hn|].
      reflexivity.
    + rewrite lookup_insert_ne by assumption. apply Hs.
Qed.

Lemma get_idf_all_returns (ix : Index) (terms : list string) (w : world) :
  exists vs w', get_idf_all (LuceneSearcher ix) terms w = (Ok vs, w')
                /\ doc_count w' = doc_count w
                /\ term_cache w ⊆ term_cache w'
                /\ forall term v, term_cache w !! term = Some v ->
                     Forall2 (fun t x => t = term -> x = v) terms vs.
Proof.
  revert w. induction terms as [|t terms IH]; intros w.
  - exists [], w. repeat split; try reflexivity. intros; constructor.
  - destruct (get_idf_returns ix t w) as (v & w1 & Hrun & Hn & Hsub).
    destruct (IH w1) as (vs & w' & Hrest & Hn' & Hsub' & Hall).
    exists (v :: vs), w'. cbn [get_idf_all]. run_monad.
    rewrite Hrun, Hrest. split; [reflexivity|]. split; [congruence|].
    split; [etrans; eassumption|].
    intros term c Hc. constructor.
    + intros ->. rewrite (get_idf_cached _ _ _ _ Hc) in Hrun. congruence.
    + apply Hall. eapply lookup_weaken; eassumption.
Qed.

Lemma get_idf_all_keeps_cache_sound (ix : Index) (terms : list string)
    (w w' : world) (r : result (list R)) :
  respects_k ix -> cache_sound w ->
  get_idf_all (LuceneSearcher ix) terms w = (r, w') -> cache_sound w'.
Proof.
  intros Hk. revert w w' r.
  induction terms as [|t terms IH]; intros w w' r Hs.
  - intros [= _ <-]. exact Hs.
  - cbn [get_idf_all]. run_monad.
    destruct (FallbackIDFCalculator.get_idf (LuceneSearcher ix) t w)
      as [[v|e] w1] eqn:E;
      pose proof (get_idf_keeps_cache_sound _ _ _ _ _ Hk Hs E) as Hs1.
    + destruct (get_idf_all (LuceneSearcher ix) terms w1)
        as [[vs|e] w2] eqn:E2;
        pose proof (IH _ _ _ Hs1 E2); intros [= _ <-]; assumption.
    + intros [= _ <-]. exact Hs1.
Qed.

(** C8.  Over an index that returns at most [k] hits for a search capped at
    [k]: the constructor fixes the document count as the integer part of the
    score of the top hit of the probe search, or 1,000,000 when the probe
    raises or returns nothing, and starts with an empty cache.  A lookup
    never raises.  For a term not yet cached it issues one search capped at
    100, so that [df <= 100], and returns [ln ((count + 1) / (df + 1))];
    when the search raises or the logarithm is undefined it returns 0.  For
    a cached term it returns the cached value, and every cached value was
    computed by that formula: after the construction and any sequence of
    lookups, a lookup returns the formula's value for some [df <= 100], or
    0. *)
Theorem fallback_idf_formula (ix : Index) :
  respects_k ix ->
  (forall w0, exists w1,
      FallbackIDFCalculator.__init__ (LuceneSearcher ix) w0 = (Ok tt, w1)
      /\ term_cache w1 = ∅
      /\ cache_sound w1
      /\ doc_count w1 = match answer ix (calls w0) "the" 1 with
                        | Ok (hit :: _) => Py.int (score hit)
                        | _ => 1000000%Z
                        end)
  /\ (forall term w, exists v w',
        FallbackIDFCalculator.get_idf (LuceneSearcher ix) term w = (Ok v, w')
        /\ doc_count w' = doc_count w
        /\ (cache_sound w -> cache_sound w')
        /\ match term_cache w !! term with
           | Some cached => v = cached
           | None =>
               match answer ix (calls w) term 100 with
               | Ok hits =>
                   (length hits <= 100)%nat
                   /\ if decide (0 < doc_count w + 1)%Z
                      then v = ln (IZR (doc_count w + 1)
                                   / IZR (Z.of_nat (length hits) + 1))
                      else v = 0
               | Raise _ => v = 0
               end
           end)
  /\ (forall w0 terms term, exists w1 vs w2 v w3,
        FallbackIDFCalculator.__init__ (LuceneSearcher ix) w0 = (Ok tt, w1)
        /\ get_idf_all (LuceneSearcher ix) terms w1 = (Ok vs, w2)
        /\ FallbackIDFCalculator.get_idf (LuceneSearcher ix) term w2
           = (Ok v, w3)
        /\ (v = 0
            \/ exists df, (df <= 100)%nat
                 /\ v = ln (IZR (doc_count w1 + 1) / IZR (Z.of_nat df + 1)))).
Proof.
  intros Hk.
  assert (Hinit : forall w0, exists w1,
    FallbackIDFCalculator.__init__ (LuceneSearcher ix) w0 = (Ok tt, w1)
    /\ term_cache w1 = ∅
    /\ cache_sound w1
    /\ doc_count w1 = match answer ix (calls w0) "the" 1 with
                      | Ok (hit :: _) => Py.int (score hit)
                      | _ => 1000000%Z
                      end).
  { intros w0. unfold FallbackIDFCalculator.__init__. run_monad.
    rewrite estimate_doc_count_value.
    eexists. split; [reflexivity|]. cbn [term_cache doc_count searched calls].
    split; [reflexivity|]. split; [|reflexivity].
    intros t v. cbn [term_cache]. rewrite lookup_empty. discriminate. }
  split; [exact Hinit|]. split; cycle 1.
  { intros w0 terms term.
    destruct (Hinit w0) as (w1 & Hrun1 & _ & Hs1 & _).
    destruct (get_idf_all_returns ix terms w1) as (vs & w2 & Hrun2 & Hn2 & _).
    pose proof (get_idf_all_keeps_cache_sound _ _ _ _ _ Hk Hs1 Hrun2) as Hs2.
    destruct (get_idf_returns ix term w2) as (v & w3 & Hrun3 & _ & _).
    exists w1, vs, w2, v, w3. repeat (split; [assumption|]).
    destruct (term_cache w2 !! term) as [c|] eqn:Hc.
    - rewrite (get_idf_cached _ _ _ _ Hc) in Hrun3. injection Hrun3 as <- _.
      destruct (Hs2 _ _ Hc) as (df & Hdf & _ & ->). right. exists df.
      split; [exact Hdf|]. unfold idf_formula. rewrite Hn2. reflexivity.
    - rewrite (get_idf_miss _ _ _ Hc) in Hrun3.
      destruct (answer ix (calls w2) term 100) as [hits|e] eqn:Ha;
        [destruct (decide _)|]; injection Hrun3 as <- _;
        try (left; reflexivity).
      right. exists (length hits). split; [exact (Hk _ _ _ _ Ha)|].
      unfold idf_formula. rewrite Hn2. reflexivity. }
  intros term w.
  destruct (get_idf_returns ix term w) as (v & w' & Hrun & Hn & _).
  exists v, w'. split; [exact Hrun|]. split; [exact Hn|]. split.
  { intros Hs. exact (get_idf_keeps_cache_sound _ _ _ _ _ Hk Hs Hrun). }
  destruct (term_cache w !! term) as [c|] eqn:Hc.
  - rewrite (get_idf_cached _ _ _ _ Hc) in Hrun. congruence.
  - rewrite (get_idf_miss _ _ _ Hc) in Hrun.
    destruct (answer ix (calls w) term 100) as [hits|e] eqn:Ha.
    + split; [exact (Hk _ _ _ _ Ha)|].
      unfold idf_formula in Hrun. destruct (decide _); congruence.
    + congruence.
Qed.

Lemma two_document_index_respects_k : respects_k two_document_index.
Proof.
  intros history q k hits [= <-]. rewrite length_take. apply Nat.le_min_l.
Qed.

Lemma fallback_idf_formula_witness :
  exists w1 v w2,
    FallbackIDFCalculator.__init__ (LuceneSearcher two_document_index)
      (MkWorld [] 0 ∅) = (Ok tt, w1)
    /\ doc_count w1 = 7%Z
    /\ FallbackIDFCalculator.get_idf (LuceneSearcher two_document_index)
         "cat" w1 = (Ok v, w2)
    /\ v = ln (IZR (7 + 1) / IZR (Z.of_nat 2 + 1)).
Proof.
  destruct (fallback_idf_formula two_document_index
              two_document_index_respects_k) as (Hinit & Hlookup & _).
  destruct (Hinit (MkWorld [] 0 ∅)) as (w1 & H1 & H2 & _ & H3).
  destruct (Hlookup "cat"%string w1) as (v & w2 & Hrun & _ & _ & Hv).
  cbn in H3. rewrite py_int_positive in H3.
  rewrite H2, lookup_empty, H3 in Hv. cbn in Hv. destruct Hv as [_ Hv].
  exists w1, v, w2. repeat split; assumption.
Defined.

(** ** The IDF cache *)

(** *** The cache through a whole run of [rerank] *)

Lemma extends_refl (w : world) : extends w w.
Proof. split; reflexivity. Qed.

Lemma extends_trans (w1 w2 w3 : world) :
  extends w1 w2 -> extends w2 w3 -> extends w1 w3.
Proof.
  intros [Hn Hc] [Hn' Hc']. split; [congruence|]. etrans; eassumption.
Qed.

Lemma cache_monotone_ret {A : Type} (a : A) : cache_monotone (ret a).
Proof. intros w r w' [= _ <-]. apply extends_refl. Qed.

Lemma cache_monotone_lift {A : Type} (r : result A) : cache_monotone (lift r).
Proof. intros w r' w' [= _ <-]. apply extends_refl. Qed.

Lemma cache_monotone_bind {A B : Type} (m : M world A) (k : A -> M world B) :
  cache_monotone m -> (forall a, cache_monotone (k a)) ->
  cache_monotone (bind m k).
Proof.
  intros Hm Hk w r w'. unfold bind.
  destruct (m w) as [[a|e] w1] eqn:E; specialize (Hm _ _ _ E).
  - intros Hrun. eapply extends_trans; [exact Hm|]. eapply Hk, Hrun.
  - intros [= _ <-]. exact Hm.
Qed.

Lemma cache_monotone_try_except {A : Type} (m : M world A)
    (h : pyexn -> M world A) :
  cache_monotone m -> (forall e, cache_monotone (h e)) ->
  cache_monotone (try_except m h).
Proof.
  intros Hm Hh w r w'. unfold try_except.
  destruct (m w) as [[a|e] w1] eqn:E; specialize (Hm _ _ _ E).
  - intros [= _ <-]. exact Hm.
  - intros Hrun. eapply extends_trans; [exact Hm|]. eapply Hh, Hrun.
Qed.

Lemma cache_monotone_get_idf (ix : Index) (term : string) :
  cache_monotone (FallbackIDFCalculator.get_idf (LuceneSearcher ix) term).
Proof.
  intros w r w' Hrun.
  destruct (get_idf_returns ix term w) as (v & w1 & Hv & Hn & Hsub).
  rewrite Hv in Hrun. injection Hrun as _ <-. split; assumption.
Qed.

Lemma cache_monotone_doc_raw (ix : Index) (d : string) :
  cache_monotone (doc_raw (LuceneSearcher ix) d).
Proof. apply cache_monotone_lift. Qed.

Section RerankWithFallback.
Variable ix : Index.
Let searcher := LuceneSearcher ix.
Let idf_calculator := FallbackIDFCalculator.calculator searcher.

Lemma cache_monotone_score_terms (tf_map : gmap string nat) (doc_len : nat)
    (mean_tf : R) (terms : list string) (score : R) :
  cache_monotone
    (score_terms idf_calculator tf_map doc_len mean_tf terms score).
Proof.
  revert score. induction terms as [|t terms IH]; intros score;
    cbn [score_terms]; [apply cache_monotone_ret|].
  destruct (default O (tf_map !! t) =? 0)%nat; [apply IH|].
  do 3 (apply cache_monotone_bind; [apply cache_monotone_lift|intros ?]).
  apply cache_monotone_bind; [apply cache_monotone_get_idf|intros ?].
  apply IH.
Qed.

Lemma cache_monotone_score_document (query : string) (hit : Hit) :
  cache_monotone (score_document query hit searcher idf_calculator).
Proof.
  unfold score_document.
  apply cache_monotone_bind; [apply cache_monotone_doc_raw|intros raw].
  apply cache_monotone_bind; [apply cache_monotone_lift|intros mean_tf].
  apply cache_monotone_bind; [apply cache_monotone_score_terms|intros score].
  apply cache_monotone_ret.
Qed.

Lemma cache_monotone_score_hits (query : string) (hits : list Hit)
    (doc_scores : list (string * R)) :
  cache_monotone (score_hits query hits searcher idf_calculator doc_scores).
Proof.
  revert doc_scores. induction hits as [|hit hits IH]; intros doc_scores;
    cbn [score_hits]; [apply cache_monotone_ret|].
  apply cache_monotone_bind; [|intros ?; apply IH].
  apply cache_monotone_try_except; [|intros ?; apply cache_monotone_ret].
  apply cache_monotone_bind; [|intros ?; apply cache_monotone_ret].
  apply cache_monotone_score_document.
Qed.

Lemma cache_monotone_rerank (query : string) (hits : list Hit) :
  cache_monotone (rerank query hits searcher idf_calculator).
Proof.
  unfold rerank.
  apply cache_monotone_bind; [|intros ?; apply cache_monotone_ret].
  apply cache_monotone_score_hits.
Qed.
End RerankWithFallback.

(** C9, as the code has it.  Once a term's IDF is stored, a lookup for it
    returns the stored value and changes nothing: no search is issued and
    the cache is as it was.  Any sequence of later lookups only adds entries
    to the cache (every stored entry is still there with its value), and
    each lookup of the term among them returns the stored value; so does a
    whole run of [rerank] with this calculator, however it ends.  A lookup
    that fails, because its search raises or because the logarithm is
    undefined, returns 0 and stores nothing, after having issued its
    search. *)
Theorem idf_cache_is_append_only (ix : Index) (term : string) (v : R)
    (w : world) :
  term_cache w !! term = Some v ->
  FallbackIDFCalculator.get_idf (LuceneSearcher ix) term w = (Ok v, w)
  /\ (forall terms, exists vs w',
        get_idf_all (LuceneSearcher ix) terms w = (Ok vs, w')
        /\ term_cache w ⊆ term_cache w'
        /\ term_cache w' !! term = Some v
        /\ Forall2 (fun t x => t = term -> x = v) terms vs)
  /\ (forall query hits r w',
        rerank query hits (LuceneSearcher ix)
          (FallbackIDFCalculator.calculator (LuceneSearcher ix)) w = (r, w') ->
        term_cache w ⊆ term_cache w' /\ term_cache w' !! term = Some v)
  /\ (forall other,
        term_cache w !! other = None ->
        (exists e, answer ix (calls w) other 100 = Raise e)
        \/ (doc_count w + 1 <= 0)%Z ->
        FallbackIDFCalculator.get_idf (LuceneSearcher ix) other w
        = (Ok 0, searched other 100 w)
        /\ term_cache (searched other 100 w) = term_cache w).
Proof.
  intros Hc. split; [apply get_idf_cached, Hc|]. split; [|split].
  2:{ intros query hits r w' Hrun.
      destruct (cache_monotone_rerank ix query hits _ _ _ Hrun) as [_ Hsub].
      split; [exact Hsub|]. eapply lookup_weaken; eassumption. }
  - intros terms.
    destruct (get_idf_all_returns ix terms w)
      as (vs & w' & Hrun & _ & Hsub & Hall).
    exists vs, w'. split; [exact Hrun|]. split; [exact Hsub|].
    split; [eapply lookup_weaken; eassumption|]. apply Hall, Hc.
  - intros other Hnone Hfail. rewrite (get_idf_miss _ _ _ Hnone).
    destruct Hfail as [[e ->]|Hn]; [split; reflexivity|].
    destruct (answer ix (calls w) other 100); [|split; reflexivity].
    destruct (decide _); [lia|split; reflexivity].
Qed.

Lemma idf_cache_is_append_only_witness :
  FallbackIDFCalculator.get_idf (LuceneSearcher flaky_index) "cat"
    (MkWorld [] 1000000 {[ "cat"%string := 2 ]})
  = (Ok 2, MkWorld [] 1000000 {[ "cat"%string := 2 ]}).
Proof.
  apply (idf_cache_is_append_only flaky_index "cat" 2
           (MkWorld [] 1000000 {[ "cat"%string := 2 ]})).
  apply lookup_singleton_eq.
Defined.

(** C9, the case of a failed lookup.  The first lookup of "cat" raises
    inside and returns 0; nothing is stored, and the second lookup issues a
    second search and returns another value. *)
Lemma failed_lookup_is_not_cached :
  let searcher := LuceneSearcher flaky_index in
  let first := FallbackIDFCalculator.get_idf searcher "cat" fresh_world in
  let second := FallbackIDFCalculator.get_idf searcher "cat" (snd first) in
  fst first = Ok 0
  /\ term_cache (snd first) !! "cat" = None
  /\ calls (snd first) = [("cat"%string, 100%nat)]
  /\ fst second = Ok (ln (IZR 1000001 / IZR 1))
  /\ ln (IZR 1000001 / IZR 1) <> 0
  /\ calls (snd second) = [("cat"%string, 100%nat); ("cat"%string, 100%nat)].
Proof.
  cbv zeta.
  assert (H1 : FallbackIDFCalculator.get_idf (LuceneSearcher flaky_index)
                 "cat" fresh_world
               = (Ok 0, searched "cat" 100 fresh_world)).
  { rewrite get_idf_miss by reflexivity. reflexivity. }
  rewrite H1. cbn [fst snd].
  assert (H2 : FallbackIDFCalculator.get_idf (LuceneSearcher flaky_index) "cat"
                 (searched "cat" 100 fresh_world)
               = (Ok (idf_formula 1000000 0),
                  stored "cat" (idf_formula 1000000 0)
                    (searched "cat" 100 (searched "cat" 100 fresh_world)))).
  { rewrite get_idf_miss by reflexivity. cbn.
    destruct (decide _) as [_|Hn]; [reflexivity|]. exfalso. apply Hn. lia. }
  rewrite H2. cbn [fst snd].
  repeat split.
  intros Hz. assert (Hp : 0 < ln (IZR 1000001 / IZR 1)).
  { rewrite <- ln_1. apply ln_increasing; lra. }
  lra.
Qed.

(** ** Rational bounds on the exponential and the logarithm

    [exp (- y)] for [0 <= y <= 1] lies between two consecutive partial sums
    of its alternating series; the sums of degree 11 and 10 are written in
    Horner form. *)

Lemma exp_neg_series (y : R) (N : nat) :
  0 <= y <= 1 ->
  sum_f_R0 (tg_alt (fun i => y ^ i / INR (fact i))) (S (2 * N))
  <= exp (- y)
  <= sum_f_R0 (tg_alt (fun i => y ^ i / INR (fact i))) (2 * N).
Proof.
  intros Hy. apply alternated_series_ineq.
  - intros n. cbn [pow]. rewrite fact_simpl, mult_INR.
    pose proof (pow_le y n (proj1 Hy)) as Hp.
    pose proof (INR_fact_lt_0 n) as Hf.
    assert (Hn : 1 <= INR (S n))
      by (rewrite S_INR; pose proof (pos_INR n); lra).
    unfold Rdiv. rewrite Rinv_mult.
    assert (Hi : 0 < / INR (fact n)) by (apply Rinv_0_lt_compat, Hf).
    assert (Hs : 0 < / INR (S n) <= 1).
    { split; [apply Rinv_0_lt_compat; lra|].
      rewrite <- Rinv_1. apply Rinv_le_contravar; lra. }
    assert (H0 : 0 <= y ^ n * / INR (fact n)) by (apply Rmult_le_pos; lra).
    replace (y * y ^ n * (/ INR (S n) * / INR (fact n)))
      with ((y * / INR (S n)) * (y ^ n * / INR (fact n))) by ring.
    assert (Hys : 0 <= y * / INR (S n) <= 1) by nra.
    nra.
  - apply cv_speed_pow_fact.
  - unfold exp. destruct (exist_exp (- y)) as [l Hl]. cbn [proj1_sig].
    unfold exp_in, infinite_sum in Hl. intros eps Heps.
    destruct (Hl eps Heps) as [n0 Hn0]. exists n0. intros n Hn.
    replace (sum_f_R0 (tg_alt (fun i => y ^ i / INR (fact i))) n)
      with (sum_f_R0 (fun i => / INR (fact i) * (- y) ^ i) n);
      [apply Hn0, Hn|].
    apply sum_eq. intros i _. unfold tg_alt.
    replace (- y) with (-1 * y) by ring. rewrite Rpow_mult_distr. field.
    apply INR_fact_neq_0.
Qed.

Lemma INR_fact_values :
  INR (fact 0) = 1 /\ INR (fact 1) = 1 /\ INR (fact 2) = 2 /\ INR (fact 3) = 6
  /\ INR (fact 4) = 24 /\ INR (fact 5) = 120 /\ INR (fact 6) = 720
  /\ INR (fact 7) = 5040 /\ INR (fact 8) = 40320 /\ INR (fact 9) = 362880
  /\ INR (fact 10) = 3628800 /\ INR (fact 11) = 39916800.
Proof.
  assert (step : forall n v, INR (fact n) = v ->
                             INR (fact (S n)) = INR (S n) * v).
  { intros n v <-. rewrite fact_simpl, mult_INR. reflexivity. }
  assert (F0 : INR (fact 0) = 1) by (simpl; lra).
  pose proof (step _ _ F0) as F1.
  pose proof (step _ _ F1) as F2.
  pose proof (step _ _ F2) as F3.
  pose proof (step _ _ F3) as F4.
  pose proof (step _ _ F4) as F5.
  pose proof (step _ _ F5) as F6.
  pose proof (step _ _ F6) as F7.
  pose proof (step _ _ F7) as F8.
  pose proof (step _ _ F8) as F9.
  pose proof (step _ _ F9) as F10.
  pose proof (step _ _ F10) as F11.
  rewrite !S_INR in *. cbn [INR] in *.
  repeat split; lra.
Qed.

Lemma exp_neg_bounds (y : R) :
  0 <= y <= 1 -> exp_neg_lower y <= exp (- y) <= exp_neg_upper y.
Proof.
  intros Hy. pose proof (exp_neg_series y 5 Hy) as H.
  change (2 * 5)%nat with 10%nat in H.
  cbn [sum_f_R0] in H. unfold tg_alt in H.
  destruct INR_fact_values
    as (F0 & F1 & F2 & F3 & F4 & F5 & F6 & F7 & F8 & F9 & F10 & F11).
  rewrite F0, F1, F2, F3, F4, F5, F6, F7, F8, F9, F10, F11 in H.
  unfold exp_neg_lower, exp_neg_upper.
  destruct H as [Hl Hu]. split.
  - eapply Rle_trans; [|exact Hl]. apply Req_le. field.
  - eapply Rle_trans; [exact Hu|]. apply Req_le. field.
Qed.

Lemma exp_neg_ge (y k : R) :
  0 <= y <= 1 -> k <= exp_neg_lower y -> k <= exp (- y).
Proof. intros Hy Hk. pose proof (exp_neg_bounds y Hy). lra. Qed.

Lemma exp_neg_le (y k : R) :
  0 <= y <= 1 -> exp_neg_upper y <= k -> exp (- y) <= k.
Proof. intros Hy Hk. pose proof (exp_neg_bounds y Hy). lra. Qed.

(** Closes a bound on [exp (- q)] at a rational [q] by the series. *)
Ltac series_bound :=
  first [apply exp_neg_ge | apply exp_neg_le];
  [lra | unfold exp_neg_lower, exp_neg_upper; lra].

Lemma exp_neg_double (y : R) : exp (- (2 * y)) = exp (- y) * exp (- y).
Proof. rewrite <- exp_plus. f_equal. ring. Qed.

Lemma ln_gt (x l : R) : 0 < x -> / x < exp (- l) -> l < ln x.
Proof.
  intros Hx H. apply exp_lt_inv. rewrite exp_ln by assumption.
  rewrite exp_Ropp in H. destruct (Rlt_dec (exp l) x) as [|Hn]; [assumption|].
  apply Rnot_lt_le in Hn. pose proof (Rinv_le_contravar _ _ Hx Hn). lra.
Qed.

Lemma ln_lt (x u : R) : 0 < x -> exp (- u) < / x -> ln x < u.
Proof.
  intros Hx H. apply exp_lt_inv. rewrite exp_ln by assumption.
  rewrite exp_Ropp in H. destruct (Rlt_dec x (exp u)) as [|Hn]; [assumption|].
  apply Rnot_lt_le in Hn.
  pose proof (Rinv_le_contravar _ _ (exp_pos u) Hn). lra.
Qed.

Lemma ln_2_bounds : 693146 / 1000000 < ln 2 < 693148 / 1000000.
Proof.
  split.
  - apply ln_gt; [lra|].
    assert (50000005 / 100000000 <= exp (- (693146 / 1000000)))
      by series_bound.
    lra.
  - apply ln_lt; [lra|].
    assert (exp (- (693148 / 1000000)) <= 4999999 / 10000000)
      by series_bound.
    lra.
Qed.

Lemma ln_35_bounds : 1252762 / 1000000 < ln (35 / 10) < 1252764 / 1000000.
Proof.
  split.
  - apply ln_gt; [lra|].
    replace (1252762 / 1000000) with (2 * (626381 / 1000000)) by field.
    rewrite exp_neg_double.
    assert (5345226 / 10000000 <= exp (- (626381 / 1000000)))
      by series_bound.
    replace (/ (35 / 10)) with (2 / 7) by field. nra.
  - apply ln_lt; [lra|].
    replace (1252764 / 1000000) with (2 * (626382 / 1000000)) by field.
    rewrite exp_neg_double.
    assert (exp (- (626382 / 1000000)) <= 5345223 / 10000000)
      by series_bound.
    pose proof (exp_pos (- (626382 / 1000000))).
    replace (/ (35 / 10)) with (2 / 7) by field. nra.
Qed.

Lemma ln_3_bounds : 1098611 / 1000000 < ln 3 < 1098613 / 1000000.
Proof.
  split.
  - apply ln_gt; [lra|].
    replace (1098611 / 1000000) with (2 * (5493055 / 10000000)) by field.
    rewrite exp_neg_double.
    assert (5773505 / 10000000 <= exp (- (5493055 / 10000000)))
      by series_bound.
    nra.
  - apply ln_lt; [lra|].
    replace (1098613 / 1000000) with (2 * (5493065 / 10000000)) by field.
    rewrite exp_neg_double.
    assert (exp (- (5493065 / 10000000)) <= 5773501 / 10000000)
      by series_bound.
    pose proof (exp_pos (- (5493065 / 10000000))).
    nra.
Qed.

Lemma ln_11_bounds : 23967 / 10000 < ln 11 < 23983 / 10000.
Proof.
  split.
  - apply ln_gt; [lra|].
    replace (23967 / 10000) with (2 * (2 * (599175 / 1000000))) by field.
    rewrite !exp_neg_double.
    assert (5492 / 10000 <= exp (- (599175 / 1000000)))
      by series_bound.
    set (e := exp (- (599175 / 1000000))) in *.
    assert (5492 / 10000 * (5492 / 10000) <= e * e) by nra.
    nra.
  - apply ln_lt; [lra|].
    replace (23983 / 10000) with (2 * (2 * (599575 / 1000000))) by field.
    rewrite !exp_neg_double.
    assert (exp (- (599575 / 1000000)) <= 54906 / 100000)
      by series_bound.
    pose proof (exp_pos (- (599575 / 1000000))).
    set (e := exp (- (599575 / 1000000))) in *.
    assert (0 < e * e <= 54906 / 100000 * (54906 / 100000)) by nra.
    nra.
Qed.

Lemma exp_neg_3_bounds :
  49787 / 1000000 < exp (- (6 / 2)) < 497871 / 10000000.
Proof.
  replace (6 / 2) with (2 * (2 * (75 / 100))) by field.
  rewrite !exp_neg_double.
  assert (4723665 / 10000000 <= exp (- (75 / 100)))
    by series_bound.
  assert (exp (- (75 / 100)) <= 4723666 / 10000000)
    by series_bound.
  set (e := exp (- (75 / 100))) in *.
  assert (4723665 / 10000000 * (4723665 / 10000000) <= e * e
          <= 4723666 / 10000000 * (4723666 / 10000000)) by nra.
  nra.
Qed.

Lemma exp_neg_32_bound : 0 < exp (- (64 / 2)) < / 4294967296.
Proof.
  split; [apply exp_pos|].
  assert (H1 : 0 < exp (- (1)) < 1 / 2).
  { split; [apply exp_pos|]. rewrite exp_Ropp.
    pose proof (exp_ineq1 1). unfold Rdiv. rewrite Rmult_1_l.
    apply Rinv_lt_contravar; lra. }
  assert (H2 : 0 < exp (- (2 * 1)) < 1 / 4) by (rewrite exp_neg_double; nra).
  assert (H4 : 0 < exp (- (2 * (2 * 1))) < 1 / 16)
    by (rewrite exp_neg_double; nra).
  assert (H8 : 0 < exp (- (2 * (2 * (2 * 1)))) < 1 / 256)
    by (rewrite exp_neg_double; nra).
  assert (H16 : 0 < exp (- (2 * (2 * (2 * (2 * 1))))) < 1 / 65536)
    by (rewrite exp_neg_double; nra).
  assert (H32 : 0 < exp (- (2 * (2 * (2 * (2 * (2 * 1)))))) < 1 / 4294967296)
    by (rewrite exp_neg_double; nra).
  replace (64 / 2) with (2 * (2 * (2 * (2 * (2 * 1))))) by field. lra.
Qed.

(** ** The feature computer *)

(** With a positive mean and a non-empty document nothing raises. *)
Lemma compute_normalized_tf_value (tf doc_len : nat) (mean_tf : R) :
  0 < mean_tf -> (0 < doc_len)%nat ->
  compute_normalized_tf tf doc_len mean_tf
  = Ok (ln (1 + INR tf) / ln (c + mean_tf),
        INR tf * ln (1 + 1000 / INR doc_len)).
Proof.
  intros Hm Hl. unfold compute_normalized_tf, c.
  pose proof (pos_INR tf) as Htf.
  assert (Hdl : 0 < INR doc_len) by (apply lt_0_INR; exact Hl).
  destruct (decide (0 < mean_tf)) as [_|]; [|contradiction].
  unfold Py.log at 1. destruct (decide (0 < 1 + INR tf)) as [_|]; [|lra].
  cbn [rbind]. unfold Py.log at 1.
  destruct (decide (0 < 1 + mean_tf)) as [_|]; [|lra].
  cbn [rbind]. unfold Py.div at 1.
  assert (Hln : 0 < ln (1 + mean_tf)).
  { rewrite <- ln_1. apply ln_increasing; lra. }
  destruct (decide (ln (1 + mean_tf) = 0)) as [E|_]; [lra|].
  cbn [rbind]. apply Nat.ltb_lt in Hl. rewrite Hl.
  unfold Py.div. destruct (decide (INR doc_len = 0)) as [E|_]; [lra|].
  cbn [rbind]. unfold Py.log.
  assert (0 < 1000 / INR doc_len) by (apply Rdiv_lt_0_compat; lra).
  destruct (decide (0 < 1 + 1000 / INR doc_len)) as [_|]; [|lra].
  reflexivity.
Qed.

(** The worked example: three occurrences, or two, in a document of 100
    words, with the mean 2.5. *)
Lemma compute_normalized_tf_cat :
  compute_normalized_tf 3 100 (25 / 10) = Ok (ln 4 / ln (35 / 10), 3 * ln 11).
Proof.
  rewrite compute_normalized_tf_value by (lra || lia).
  rewrite !INR_IZR_INZ. cbn [Z.of_nat Pos.of_succ_nat Pos.succ]. unfold c.
  do 2 f_equal; f_equal; f_equal; field.
Qed.

Lemma compute_normalized_tf_dog :
  compute_normalized_tf 2 100 (25 / 10) = Ok (ln 3 / ln (35 / 10), 2 * ln 11).
Proof.
  rewrite compute_normalized_tf_value by (lra || lia).
  rewrite !INR_IZR_INZ. cbn [Z.of_nat Pos.of_succ_nat Pos.succ]. unfold c.
  do 2 f_equal; f_equal; f_equal; field.
Qed.

Lemma ln_4_bounds : 1386292 / 1000000 < ln 4 < 1386296 / 1000000.
Proof.
  replace 4 with (2 * 2) by ring. rewrite ln_mult by lra.
  pose proof ln_2_bounds. lra.
Qed.

Lemma x_cat_bounds :
  1106586 / 1000000 < ln 4 / ln (35 / 10) < 1106592 / 1000000.
Proof.
  pose proof ln_4_bounds as Ha. pose proof ln_35_bounds as Hb.
  assert (E : ln 4 / ln (35 / 10) * ln (35 / 10) = ln 4) by (field; lra).
  set (x := ln 4 / ln (35 / 10)) in *. nra.
Qed.

Lemma x_dog_bounds :
  876948 / 1000000 < ln 3 / ln (35 / 10) < 876954 / 1000000.
Proof.
  pose proof ln_3_bounds as Ha. pose proof ln_35_bounds as Hb.
  assert (E : ln 3 / ln (35 / 10) * ln (35 / 10) = ln 3) by (field; lra).
  set (x := ln 3 / ln (35 / 10)) in *. nra.
Qed.

Lemma exp_neg_monotone (y lo hi : R) :
  lo <= y <= hi -> exp (- hi) <= exp (- y) <= exp (- lo).
Proof.
  intros [H1 H2]. split.
  - destruct (Req_dec y hi) as [->|]; [lra|].
    left. apply exp_increasing. lra.
  - destruct (Req_dec y lo) as [->|]; [lra|].
    left. apply exp_increasing. lra.
Qed.

(** [exp (- lambda_exp * X)] for the two values of X. *)
Lemma decay_x_cat :
  575051 / 1000000
  <= exp (- lambda_exp * (ln 4 / ln (35 / 10)))
  <= 575054 / 1000000.
Proof.
  pose proof x_cat_bounds as Hx. unfold lambda_exp.
  set (x := ln 4 / ln (35 / 10)) in *.
  replace (- (5 / 10) * x) with (- (x / 2)) by field.
  destruct (exp_neg_monotone (x / 2) (553293 / 1000000) (553296 / 1000000))
    as [Hlo Hhi]; [lra|].
  split.
  - eapply Rle_trans; [|exact Hlo].
    series_bound.
  - eapply Rle_trans; [exact Hhi|].
    series_bound.
Qed.

Lemma decay_x_dog :
  645018 / 1000000
  <= exp (- lambda_exp * (ln 3 / ln (35 / 10)))
  <= 645020 / 1000000.
Proof.
  pose proof x_dog_bounds as Hx. unfold lambda_exp.
  set (x := ln 3 / ln (35 / 10)) in *.
  replace (- (5 / 10) * x) with (- (x / 2)) by field.
  destruct (exp_neg_monotone (x / 2) (438474 / 1000000) (438477 / 1000000))
    as [Hlo Hhi]; [lra|].
  split.
  - eapply Rle_trans; [|exact Hlo].
    series_bound.
  - eapply Rle_trans; [exact Hhi|].
    series_bound.
Qed.

(** [exp (- lambda_exp * Y)] for the two values of Y: 11^(-3/2) and 1/11. *)
Lemma decay_y_cat :
  27410 / 1000000 < exp (- lambda_exp * (3 * ln 11)) < 27411 / 1000000.
Proof.
  set (b := exp (- lambda_exp * (3 * ln 11))).
  assert (Hb : 0 < b) by apply exp_pos.
  assert (Hsq : b * b * (11 * 11 * 11) = 1).
  { unfold b, lambda_exp. rewrite <- exp_plus.
    replace (- (5 / 10) * (3 * ln 11) + - (5 / 10) * (3 * ln 11))
      with (- (ln 11 + ln 11 + ln 11)) by field.
    rewrite exp_Ropp, !exp_plus, exp_ln by lra. field. }
  split; nra.
Qed.

Lemma decay_y_dog : exp (- lambda_exp * (2 * ln 11)) = / 11.
Proof.
  unfold lambda_exp. replace (- (5 / 10) * (2 * ln 11)) with (- ln 11) by field.
  rewrite exp_Ropp, exp_ln by lra. reflexivity.
Qed.

Lemma decay_tau_x :
  49787 / 1000000 < exp (- lambda_exp * tau_x) < 497871 / 10000000.
Proof.
  unfold lambda_exp, tau_x. replace (- (5 / 10) * 6) with (- (6 / 2)) by field.
  exact exp_neg_3_bounds.
Qed.

Lemma decay_tau_y : 0 < exp (- lambda_exp * tau_y) < / 4294967296.
Proof.
  split; [apply exp_pos|]. unfold lambda_exp, tau_y.
  eapply Rlt_trans; [|apply exp_neg_32_bound].
  apply exp_increasing. lra.
Qed.

(** ** The worked example *)

Lemma worked_example_score_bounds :
  23818 / 10000 < worked_example_score < 238181 / 100000.
Proof.
  unfold worked_example_score, exponential_branch, alpha.
  rewrite decay_y_dog.
  pose proof decay_x_cat as HA. pose proof decay_x_dog as HB.
  pose proof decay_y_cat as Hb.
  pose proof decay_tau_x as H3. pose proof decay_tau_y as H65.
  set (A := exp (- lambda_exp * (ln 4 / ln (35 / 10)))) in *.
  set (B := exp (- lambda_exp * (ln 3 / ln (35 / 10)))) in *.
  set (b := exp (- lambda_exp * (3 * ln 11))) in *.
  set (E3 := exp (- lambda_exp * tau_x)) in *.
  set (E65 := exp (- lambda_exp * tau_y)) in *.
  assert (Hu : 10523956 / 10000000 < / (1 - E3) < 10523958 / 10000000).
  { assert (E : / (1 - E3) * (1 - E3) = 1) by (field; lra).
    set (u := / (1 - E3)) in *. nra. }
  assert (Hv : 1 < / (1 - E65) < 1 + 1 / 1000000000).
  { assert (E : / (1 - E65) * (1 - E65) = 1) by (field; lra).
    assert (E65 < 1 / 4000000000) by lra.
    set (v := / (1 - E65)) in *. nra. }
  set (u := / (1 - E3)) in *. set (v := / (1 - E65)) in *.
  change ((1 - A) / (1 - E3)) with ((1 - A) * u).
  change ((1 - B) / (1 - E3)) with ((1 - B) * u).
  change ((1 - b) / (1 - E65)) with ((1 - b) * v).
  change ((1 - / 11) / (1 - E65)) with ((1 - / 11) * v).
  assert (T1 : 4472113 / 10000000 < (1 - A) * u < 4472146 / 10000000) by nra.
  assert (T2 : 972589 / 1000000 < (1 - b) * v < 9725904 / 10000000) by nra.
  assert (T3 : 3735793 / 10000000 < (1 - B) * u < 3735816 / 10000000) by nra.
  assert (T4 : 10 / 11 < (1 - / 11) * v < 10 / 11 + 1 / 1000000000) by nra.
  lra.
Qed.

Lemma score_terms_step {St : Type} (idf_calculator : IdfCalculator St)
    (tf_map : gmap string nat) (doc_len : nat) (mean_tf : R)
    (term : string) (rest : list string) (score : R) (st st1 : St)
    (tf : nat) (X Y f_xt f_yt idf : R) :
  default O (tf_map !! term) = tf -> tf <> O ->
  compute_normalized_tf tf doc_len mean_tf = Ok (X, Y) ->
  truncated_exp_score X tau_x lambda_exp = Ok f_xt ->
  truncated_exp_score Y tau_y lambda_exp = Ok f_yt ->
  get_idf idf_calculator term st = (Ok idf, st1) ->
  score_terms idf_calculator tf_map doc_len mean_tf (term :: rest) score st
  = score_terms idf_calculator tf_map doc_len mean_tf rest
      (score + idf * (alpha * f_xt + (1 - alpha) * f_yt)) st1.
Proof.
  intros Htf Hne HXY Hx Hy Hidf. cbn [score_terms]. rewrite Htf.
  apply Nat.eqb_neq in Hne. rewrite Hne. run_monad.
  rewrite HXY. cbn [fst snd]. rewrite Hx, Hy, Hidf. reflexivity.
Qed.

Lemma exponential_branch_values :
  truncated_exp_score (ln 4 / ln (35 / 10)) tau_x lambda_exp
  = Ok (exponential_branch (ln 4 / ln (35 / 10)) tau_x)
  /\ truncated_exp_score (3 * ln 11) tau_y lambda_exp
     = Ok (exponential_branch (3 * ln 11) tau_y)
  /\ truncated_exp_score (ln 3 / ln (35 / 10)) tau_x lambda_exp
     = Ok (exponential_branch (ln 3 / ln (35 / 10)) tau_x)
  /\ truncated_exp_score (2 * ln 11) tau_y lambda_exp
     = Ok (exponential_branch (2 * ln 11) tau_y).
Proof.
  pose proof x_cat_bounds. pose proof x_dog_bounds. pose proof ln_11_bounds.
  unfold exponential_branch.
  repeat split; apply truncated_exp_score_low;
    unfold tau_x, tau_y, lambda_exp; lra.
Qed.

(** C2.  Query "cat dog"; a document of 100 words with three "cat" and two
    "dog"; idf("cat") = 2.0 and idf("dog") = 1.5.  The mean is
    M = (3+2)/2 = 2.5.  For "cat", X = ln 4 / ln 3.5, which lies between
    1.1065 and 1.1067, and Y = 3 ln 11, which rounds to 7.19.  Both signals
    fall on the exponential branch of their curve, (tau = 6, rate 1/2) for X
    and (tau = 65, rate 1/2) for Y.  The final score is
    2.0 (0.5 f(X) + 0.5 f(Y)) for "cat" plus 1.5 (0.5 f(X') + 0.5 f(Y')) for
    "dog"; it lies between 2.3818 and 2.38181, so that it is 2.3818 to four
    decimal places. *)
Theorem reranker_worked_example {St : Type} (searcher : Searcher St)
    (idf_calculator : IdfCalculator St) (hit : Hit) (content : string)
    (st st' : St) :
  doc_raw searcher (docid hit) st = (Ok (Some content), st') ->
  occurrences (PyStr.split content) "cat" = 3%nat ->
  occurrences (PyStr.split content) "dog" = 2%nat ->
  length (PyStr.split content) = 100%nat ->
  (forall s, get_idf idf_calculator "cat" s = (Ok 2, s)) ->
  (forall s, get_idf idf_calculator "dog" s = (Ok (15 / 10), s)) ->
  mean_query_tf (count_words (PyStr.split content)) "cat dog" = Ok (25 / 10)
  /\ compute_normalized_tf 3 100 (25 / 10)
     = Ok (ln 4 / ln (35 / 10), 3 * ln 11)
  /\ 11065 / 10000 < ln 4 / ln (35 / 10) < 11067 / 10000
  /\ 7185 / 1000 <= 3 * ln 11 < 7195 / 1000
  /\ truncated_exp_score (ln 4 / ln (35 / 10)) tau_x lambda_exp
     = Ok (exponential_branch (ln 4 / ln (35 / 10)) tau_x)
  /\ truncated_exp_score (3 * ln 11) tau_y lambda_exp
     = Ok (exponential_branch (3 * ln 11) tau_y)
  /\ score_document "cat dog" hit searcher idf_calculator st
     = (Ok (docid hit, worked_example_score), st')
  /\ 23818 / 10000 < worked_example_score < 238181 / 100000.
Proof.
  intros Hraw Hcat Hdog Hlen Hidf_cat Hidf_dog.
  set (doc_words := PyStr.split content) in *.
  assert (Hmean : mean_query_tf (count_words doc_words) "cat dog"
                  = Ok (25 / 10)).
  { rewrite mean_query_tf_value. f_equal. unfold mean_tf_of, present_terms.
    change (PyStr.split "cat dog") with ["cat"%string; "dog"%string].
    assert (Hc : "cat"%string ∈ doc_words).
    { apply list_elem_of_In, (count_occ_In string_dec).
      fold (occurrences doc_words "cat"). lia. }
    assert (Hd : "dog"%string ∈ doc_words).
    { apply list_elem_of_In, (count_occ_In string_dec).
      fold (occurrences doc_words "dog"). lia. }
    rewrite !filter_cons, filter_nil.
    destruct (decide ("cat"%string ∈ doc_words)); [|contradiction].
    destruct (decide ("dog"%string ∈ doc_words)); [|contradiction].
    cbn [map sum_list fold_right length]. rewrite Hcat, Hdog.
    rewrite !INR_IZR_INZ. cbn. field. }
  destruct exponential_branch_values as (Hxc & Hyc & Hxd & Hyd).
  pose proof x_cat_bounds. pose proof ln_11_bounds.
  split; [exact Hmean|]. split; [exact compute_normalized_tf_cat|].
  split; [lra|]. split; [lra|]. split; [exact Hxc|]. split; [exact Hyc|].
  split; [|exact worked_example_score_bounds].
  unfold score_document. run_monad. rewrite Hraw.
  change (default EmptyString (Some content)) with content.
  fold doc_words. rewrite Hmean, Hlen.
  change (PyStr.split "cat dog") with ["cat"%string; "dog"%string].
  rewrite (score_terms_step idf_calculator _ _ _ "cat" _ _ st' st' 3 _ _ _ _ 2
             (eq_trans (count_words_get _ _) Hcat) ltac:(discriminate)
             compute_normalized_tf_cat Hxc Hyc (Hidf_cat st')).
  rewrite (score_terms_step idf_calculator _ _ _ "dog" _ _ st' st' 2 _ _ _ _
             (15 / 10)
             (eq_trans (count_words_get _ _) Hdog) ltac:(discriminate)
             compute_normalized_tf_dog Hxd Hyd (Hidf_dog st')).
  cbn [score_terms]. unfold ret. do 2 f_equal. f_equal.
  unfold worked_example_score. ring.
Qed.

Lemma reranker_worked_example_witness :
  score_document "cat dog" (MkHit "d1" 1)
    (stored_searcher (Some cat_dog_document)) fixed_idf_calculator tt
  = (Ok ("d1"%string, worked_example_score), tt)
  /\ 23818 / 10000 < worked_example_score < 238181 / 100000.
Proof.
  apply (reranker_worked_example (stored_searcher (Some cat_dog_document))
           fixed_idf_calculator (MkHit "d1" 1) cat_dog_document tt tt).
  - reflexivity.
  - vm_compute. reflexivity.
  - vm_compute. reflexivity.
  - vm_compute. reflexivity.
  - intros []. reflexivity.
  - intros []. reflexivity.
Defined.

(** * Further properties *)

(** ** More on the saturation transform *)


(** With a positive threshold and a positive rate the transform returns,
    and a non-negative signal is mapped into the unit interval. *)
Lemma saturation_in_unit_interval (x tau lambda_ : R) :
  0 < tau -> 0 < lambda_ -> 0 <= x ->
  exists v, truncated_exp_score x tau lambda_ = Ok v /\ 0 <= v <= 1.
Proof.
  intros Ht Hl Hx.
  assert (Hlt : 0 < lambda_ * tau) by (apply Rmult_lt_0_compat; assumption).
  destruct (decide (0 < x < tau / 2)) as [Hlow|Hn].
  - eexists. split; [apply truncated_exp_score_low; assumption|].
    assert (Hlx : 0 < lambda_ * x) by (apply Rmult_lt_0_compat; lra).
    assert (Hxt : lambda_ * x < lambda_ * tau)
      by (apply Rmult_lt_compat_l; lra).
    pose proof (exp_neg_lt_1 _ Hlx) as H1.
    assert (H2 : exp (- (lambda_ * tau)) < exp (- (lambda_ * x)))
      by (apply exp_increasing; lra).
    pose proof (exp_pos (- (lambda_ * tau))) as H3.
    replace (- lambda_ * x) with (- (lambda_ * x)) by ring.
    replace (- lambda_ * tau) with (- (lambda_ * tau)) by ring.
    set (a := exp (- (lambda_ * x))) in *.
    set (b := exp (- (lambda_ * tau))) in *.
    split.
    + apply Rlt_le, Rdiv_lt_0_compat; lra.
    + apply (Rmult_le_reg_r (1 - b)); [lra|].
      unfold Rdiv. rewrite Rmult_assoc, Rinv_l by lra. lra.
  - destruct (decide (x <= tau)) as [Hle|Hgt].
    + exists (x / tau). split; [apply truncated_exp_score_mid; lra|].
      split.
      * apply Rmult_le_pos; [lra|]. apply Rlt_le, Rinv_0_lt_compat, Ht.
      * apply (Rmult_le_reg_r tau); [lra|].
        unfold Rdiv. rewrite Rmult_assoc, Rinv_l by lra. lra.
    + exists 0. split; [apply truncated_exp_score_high; lra|lra].
Qed.






(** ** More on the feature computer *)

Lemma features_value (tf doc_len : nat) (mean_tf : R) :
  compute_normalized_tf tf doc_len mean_tf
  = Ok (if decide (0 < mean_tf) then ln (1 + INR tf) / ln (c + mean_tf) else 0,
        if (0 <? doc_len)%nat then INR tf * ln (1 + 1000 / INR doc_len) else 0).
Proof.
  destruct (decide (0 < mean_tf)) as [Hm|Hm];
    destruct (0 <? doc_len)%nat eqn:Hl.
  - apply Nat.ltb_lt in Hl. apply compute_normalized_tf_value; assumption.
  - unfold compute_normalized_tf, c. rewrite Hl.
    destruct (decide (0 < mean_tf)) as [_|]; [|contradiction].
    pose proof (pos_INR tf).
    unfold Py.log at 1. destruct (decide (0 < 1 + INR tf)); [|lra].
    cbn [rbind]. unfold Py.log at 1.
    destruct (decide (0 < 1 + mean_tf)); [|lra]. cbn [rbind].
    assert (0 < ln (1 + mean_tf))
      by (rewrite <- ln_1; apply ln_increasing; lra).
    unfold Py.div. destruct (decide (ln (1 + mean_tf) = 0)); [lra|reflexivity].
  - unfold compute_normalized_tf. rewrite Hl.
    destruct (decide (0 < mean_tf)) as [|_]; [contradiction|].
    apply Nat.ltb_lt in Hl.
    assert (0 < INR doc_len) by (apply lt_0_INR, Hl).
    cbn [rbind]. unfold Py.div.
    destruct (decide (INR doc_len = 0)); [lra|]. cbn [rbind]. unfold Py.log.
    assert (0 < 1000 / INR doc_len) by (apply Rdiv_lt_0_compat; lra).
    destruct (decide (0 < 1 + 1000 / INR doc_len)); [reflexivity|lra].
  - unfold compute_normalized_tf. rewrite Hl.
    destruct (decide (0 < mean_tf)) as [|_]; [contradiction|]. reflexivity.
Qed.

Lemma ln_positive (a : R) : 1 < a -> 0 < ln a.
Proof. intros H. rewrite <- ln_1. apply ln_increasing; lra. Qed.

Lemma ln_nonnegative (a : R) : 1 <= a -> 0 <= ln a.
Proof.
  intros [H|<-]; [apply Rlt_le, ln_positive, H|rewrite ln_1; lra].
Qed.

Lemma ln_monotone (a b : R) : 0 < a -> a <= b -> ln a <= ln b.
Proof.
  intros Ha [H|<-]; [apply Rlt_le, ln_increasing; assumption|lra].
Qed.

Lemma features_nonneg (tf doc_len : nat) (mean_tf : R) :
  exists X Y, compute_normalized_tf tf doc_len mean_tf = Ok (X, Y)
              /\ 0 <= X /\ 0 <= Y.
Proof.
  rewrite features_value. do 2 eexists. split; [reflexivity|].
  pose proof (pos_INR tf) as Htf. split.
  - destruct (decide (0 < mean_tf)); [|lra].
    apply Rmult_le_pos; [apply ln_nonnegative; lra|].
    apply Rlt_le, Rinv_0_lt_compat, ln_positive. unfold c. lra.
  - destruct (0 <? doc_len)%nat eqn:Hl; [|lra].
    apply Nat.ltb_lt, lt_0_INR in Hl.
    apply Rmult_le_pos; [assumption|]. apply ln_nonnegative.
    assert (0 < 1000 / INR doc_len) by (apply Rdiv_lt_0_compat; lra). lra.
Qed.


(** X5.  Both features are non-decreasing in the term frequency.  A
    longer document, with the same term frequency and mean, has the same
    [X] and no greater [Y]; a higher mean, with the same term frequency and
    length, gives the same [Y] and no greater [X]. *)
Theorem compute_normalized_tf_monotone (tf1 tf2 doc_len : nat) (mean_tf : R) :
  (tf1 <= tf2)%nat ->
  exists X1 Y1 X2 Y2,
    compute_normalized_tf tf1 doc_len mean_tf = Ok (X1, Y1)
    /\ compute_normalized_tf tf2 doc_len mean_tf = Ok (X2, Y2)
    /\ X1 <= X2 /\ Y1 <= Y2
    /\ (forall longer X' Y', (0 < doc_len <= longer)%nat ->
          compute_normalized_tf tf2 longer mean_tf = Ok (X', Y') ->
          X' = X2 /\ Y' <= Y2)
    /\ (forall higher X' Y', 0 < mean_tf <= higher ->
          compute_normalized_tf tf2 doc_len higher = Ok (X', Y') ->
          X' <= X2 /\ Y' = Y2).
Proof.
  intros Htf. rewrite !features_value. do 4 eexists.
  split; [reflexivity|]. split; [reflexivity|].
  pose proof (pos_INR tf1) as H1. pose proof (le_INR _ _ Htf) as H12.
  split; [|split; [|split]].
  - destruct (decide (0 < mean_tf)); [|lra].
    unfold Rdiv. apply Rmult_le_compat_r.
    + apply Rlt_le, Rinv_0_lt_compat, ln_positive. unfold c. lra.
    + apply ln_monotone; lra.
  - destruct (0 <? doc_len)%nat eqn:Hl; [|lra].
    apply Nat.ltb_lt, lt_0_INR in Hl.
    apply Rmult_le_compat_r; [|assumption]. apply ln_nonnegative.
    assert (0 < 1000 / INR doc_len) by (apply Rdiv_lt_0_compat; lra). lra.
  - intros longer X' Y' [Hpos Hlen]. rewrite features_value.
    intros [= <- <-]. split; [reflexivity|].
    assert (Hpos' : (0 < longer)%nat) by lia.
    apply Nat.ltb_lt in Hpos, Hpos'. rewrite Hpos, Hpos'.
    apply Nat.ltb_lt in Hpos, Hpos'.
    pose proof (lt_0_INR _ Hpos). pose proof (le_INR _ _ Hlen).
    apply Rmult_le_compat_l; [lra|].
    assert (0 < 1000 / INR longer) by (apply Rdiv_lt_0_compat; lra).
    apply ln_monotone; [lra|].
    assert (/ INR longer <= / INR doc_len) by (apply Rinv_le_contravar; lra).
    unfold Rdiv. nra.
  - intros higher X' Y' [Hpos Hm]. rewrite features_value.
    intros [= <- <-]. split; [|reflexivity].
    destruct (decide (0 < mean_tf)); [|contradiction].
    destruct (decide (0 < higher)); [|lra].
    assert (0 <= ln (1 + INR tf2)) by (apply ln_nonnegative; lra).
    assert (0 < ln (c + mean_tf)) by (apply ln_positive; unfold c; lra).
    assert (ln (c + mean_tf) <= ln (c + higher))
      by (apply ln_monotone; unfold c; lra).
    unfold Rdiv. apply Rmult_le_compat_l; [assumption|].
    apply Rinv_le_contravar; assumption.
Qed.

Lemma compute_normalized_tf_monotone_witness :
  exists X1 Y1 X2 Y2,
    compute_normalized_tf 1 100 2 = Ok (X1, Y1)
    /\ compute_normalized_tf 3 100 2 = Ok (X2, Y2)
    /\ X1 <= X2 /\ Y1 <= Y2.
Proof.
  destruct (compute_normalized_tf_monotone 1 3 100 2)
    as (X1 & Y1 & X2 & Y2 & H1 & H2 & HX & HY & _); [lia|].
  exists X1, Y1, X2, Y2. repeat split; assumption.
Defined.

(** ** The word counts *)

Lemma total_count_insert_fresh (m : gmap string nat) (w : string) (n : nat) :
  m !! w = None -> total_count (<[w := n]> m) = (n + total_count m)%nat.
Proof.
  intros H. unfold total_count.
  rewrite map_fold_insert_L; [reflexivity| |exact H].
  intros; lia.
Qed.

Lemma total_count_bump (m : gmap string nat) (w : string) :
  total_count (<[w := S (m !!! w)]> m) = S (total_count m).
Proof.
  rewrite lookup_total_alt. destruct (m !! w) as [n|] eqn:E; cbn.
  - rewrite <- (insert_delete_eq m w (S n)).
    rewrite total_count_insert_fresh by apply lookup_delete_eq.
    rewrite <- (insert_delete_id m w n E) at 2.
    rewrite total_count_insert_fresh by apply lookup_delete_eq. lia.
  - rewrite total_count_insert_fresh by assumption. lia.
Qed.

Lemma total_count_fold (ws : list string) (m : gmap string nat) :
  total_count
    (fold_left (fun tf_map word => <[word := S (tf_map !!! word)]> tf_map) ws m)
  = (length ws + total_count m)%nat.
Proof.
  revert m. induction ws as [|w ws IH]; intros m; [reflexivity|].
  cbn [fold_left length]. rewrite IH, total_count_bump. lia.
Qed.

(** X6.  The counts of [tf_map] add up to the number of words of the
    document.  Every entry of [tf_map] is positive, belongs to a word of
    the document and is the number of its occurrences; every word of the
    document has an entry. *)
Theorem count_words_sums_to_length (doc_words : list string) :
  total_count (count_words doc_words) = length doc_words
  /\ (forall w n, count_words doc_words !! w = Some n ->
                  (0 < n)%nat /\ w ∈ doc_words /\ n = occurrences doc_words w)
  /\ (forall w, w ∈ doc_words -> is_Some (count_words doc_words !! w)).
Proof.
  split; [|split].
  - unfold count_words. rewrite total_count_fold.
    unfold total_count. rewrite map_fold_empty. lia.
  - intros w n H. rewrite count_words_lookup in H.
    destruct (decide (occurrences doc_words w = O)) as [|Hne];
      [discriminate|]. injection H as <-.
    split; [lia|]. split; [|reflexivity].
    apply count_words_is_Some. rewrite count_words_lookup.
    destruct (decide _); [contradiction|]. eexists; reflexivity.
  - intros w. apply count_words_is_Some.
Qed.

(** ** What makes a document fail, and what a score can be *)

Lemma term_weight_in_unit_interval (tf doc_len : nat) (mean_tf : R) :
  exists XY f_xt f_yt,
    compute_normalized_tf tf doc_len mean_tf = Ok XY
    /\ truncated_exp_score (fst XY) tau_x lambda_exp = Ok f_xt
    /\ truncated_exp_score (snd XY) tau_y lambda_exp = Ok f_yt
    /\ 0 <= alpha * f_xt + (1 - alpha) * f_yt <= 1.
Proof.
  destruct (features_nonneg tf doc_len mean_tf) as (X & Y & Hf & HX & HY).
  destruct (saturation_in_unit_interval X tau_x lambda_exp)
    as (fx & Hfx & Hx); [unfold tau_x; lra|unfold lambda_exp; lra|exact HX|].
  destruct (saturation_in_unit_interval Y tau_y lambda_exp)
    as (fy & Hfy & Hy); [unfold tau_y; lra|unfold lambda_exp; lra|exact HY|].
  exists (X, Y), fx, fy. repeat (split; [assumption|]).
  unfold alpha. lra.
Qed.

Lemma score_terms_returns {St : Type} (idf_calculator : IdfCalculator St)
    (tf_map : gmap string nat) (doc_len : nat) (mean_tf : R)
    (terms : list string) (score : R) (st : St) :
  idf_never_raises idf_calculator ->
  exists s st',
    score_terms idf_calculator tf_map doc_len mean_tf terms score st
    = (Ok s, st').
Proof.
  intros Hidf. revert score st.
  induction terms as [|t terms IH]; intros score st;
    [exists score, st; reflexivity|].
  cbn [score_terms].
  destruct (default O (tf_map !! t) =? 0)%nat; [apply IH|].
  destruct (term_weight_in_unit_interval (default O (tf_map !! t)) doc_len
              mean_tf) as (XY & fx & fy & Hf & Hx & Hy & _).
  destruct (Hidf t st) as (idf & st1 & Hi).
  run_monad. rewrite Hf, Hx, Hy, Hi. apply IH.
Qed.

Lemma score_document_returns {St : Type} (query : string) (hit : Hit)
    (searcher : Searcher St) (idf_calculator : IdfCalculator St)
    (raw : option string) (st st1 : St) :
  idf_never_raises idf_calculator ->
  doc_raw searcher (docid hit) st = (Ok raw, st1) ->
  exists s st',
    score_document query hit searcher idf_calculator st
    = (Ok (docid hit, s), st').
Proof.
  intros Hidf Hraw. unfold score_document. run_monad. rewrite Hraw.
  rewrite mean_query_tf_value.
  match goal with
  | |- context [score_terms ?i ?m ?l ?mu ?ts ?s ?st] =>
      destruct (score_terms_returns i m l mu ts s st Hidf) as (sc & st' & ->)
  end.
  exists sc, st'. reflexivity.
Qed.

(** X7.  When the content of every document can be fetched and the
    calculator never raises, [rerank] returns, and it returns one entry for
    every hit: the document identifiers of its output are a permutation of
    those of the hits. *)
Theorem rerank_keeps_every_candidate {St : Type} (query : string)
    (hits : list Hit) (searcher : Searcher St)
    (idf_calculator : IdfCalculator St) (st : St) :
  content_always_fetched searcher -> idf_never_raises idf_calculator ->
  exists out st',
    rerank query hits searcher idf_calculator st = (Ok out, st')
    /\ Permutation (map fst out) (map docid hits)
    /\ length out = length hits.
Proof.
  intros Hs Hidf.
  assert (Hloop : forall hits doc_scores st, exists more st',
    score_hits query hits searcher idf_calculator doc_scores st
    = (Ok (doc_scores ++ more), st')
    /\ map fst more = map docid hits).
  { clear hits st. induction hits as [|hit hits IH]; intros doc_scores st.
    - exists [], st. cbn. run_monad. rewrite app_nil_r. split; reflexivity.
    - destruct (Hs (docid hit) st) as (raw & st1 & Hraw).
      destruct (score_document_returns query hit searcher idf_calculator
                  raw st st1 Hidf Hraw) as (s & st2 & Hdoc).
      destruct (IH (doc_scores ++ [(docid hit, s)]) st2)
        as (more & st' & Hrun & Hmap).
      exists ((docid hit, s) :: more), st'. cbn [score_hits]. run_monad.
      rewrite Hdoc, Hrun, <- app_assoc. split; [reflexivity|].
      cbn. rewrite Hmap. reflexivity. }
  destruct (Hloop hits [] st) as (more & st' & Hrun & Hmap).
  cbn [app] in Hrun.
  exists (sort_reverse snd more), st'. split.
  - unfold rerank. run_monad. rewrite Hrun. reflexivity.
  - pose proof (sort_reverse_perm snd more) as Hp. split.
    + rewrite <- Hmap. apply Permutation_map, Hp.
    + rewrite (Permutation_length Hp), <- (length_map fst), Hmap.
      apply length_map.
Qed.

Lemma rerank_keeps_every_candidate_witness :
  exists out st',
    rerank "cat dog" [MkHit "d1" 3; MkHit "d2" 9]
      (stored_searcher (Some "cat dog cat")) fixed_idf_calculator tt
    = (Ok out, st')
    /\ Permutation (map fst out) ["d1"; "d2"]%string
    /\ length out = 2%nat.
Proof.
  apply (rerank_keeps_every_candidate "cat dog"
           [MkHit "d1" 3; MkHit "d2" 9]
           (stored_searcher (Some "cat dog cat")) fixed_idf_calculator tt).
  - intros d st. exists (Some "cat dog cat"%string), st. reflexivity.
  - intros term st. eexists _, st. reflexivity.
Defined.

Lemma sum_R_nonneg (l : list R) : Forall (fun r => 0 <= r) l -> 0 <= sum_R l.
Proof.
  induction 1 as [|r l Hr _ IH]; cbn [sum_R fold_right]; [lra|].
  fold (sum_R l). lra.
Qed.

Lemma score_terms_bounds {St : Type} (weight : string -> R)
    (idf_calculator : IdfCalculator St)
    (tf_map : gmap string nat) (doc_len : nat) (mean_tf : R)
    (terms : list string) (score : R) (st : St) :
  idf_table weight idf_calculator -> (forall t, 0 <= weight t) ->
  exists s,
    score_terms idf_calculator tf_map doc_len mean_tf terms score st
    = (Ok s, st)
    /\ score <= s
       <= score + sum_R (map weight
                 (filter (fun t => default O (tf_map !! t) <> O) terms)).
Proof.
  intros Hidf Hw. revert score.
  induction terms as [|t terms IH]; intros score.
  - exists score. split; [reflexivity|]. cbn. lra.
  - cbn [score_terms]. rewrite filter_cons.
    destruct (default O (tf_map !! t) =? 0)%nat eqn:E.
    + apply Nat.eqb_eq in E. destruct (decide _); [contradiction|]. apply IH.
    + apply Nat.eqb_neq in E. destruct (decide _); [|contradiction].
      destruct (term_weight_in_unit_interval (default O (tf_map !! t)) doc_len
                  mean_tf) as (XY & fx & fy & Hf & Hx & Hy & Hrange).
      run_monad. rewrite Hf, Hx, Hy, (Hidf t st).
      destruct (IH (score + weight t * (alpha * fx + (1 - alpha) * fy)))
        as (s & Hrun & Hs).
      exists s. split; [exact Hrun|]. cbn [map sum_R fold_right].
      fold (sum_R (map weight
              (filter (fun t => default O (tf_map !! t) <> O) terms))) in *.
      specialize (Hw t). nra.
Qed.

(** X8.  With a calculator that is a table of non-negative weights, the
    score of a document whose content is fetched lies between 0 and the sum
    of the weights of the query's tokens that occur in the document, each
    token counted as often as the query repeats it. *)
Theorem score_document_bounds {St : Type} (weight : string -> R)
    (query : string) (hit : Hit) (searcher : Searcher St)
    (idf_calculator : IdfCalculator St) (raw : option string) (st st' : St) :
  idf_table weight idf_calculator -> (forall t, 0 <= weight t) ->
  doc_raw searcher (docid hit) st = (Ok raw, st') ->
  exists s,
    score_document query hit searcher idf_calculator st
    = (Ok (docid hit, s), st')
    /\ 0 <= s
       <= sum_R (map weight
            (present_terms (PyStr.split (default EmptyString raw)) query)).
Proof.
  intros Hidf Hw Hraw. unfold score_document. run_monad. rewrite Hraw.
  rewrite mean_query_tf_value.
  set (doc_words := PyStr.split (default EmptyString raw)).
  destruct (score_terms_bounds weight idf_calculator (count_words doc_words)
              (length doc_words) (mean_tf_of doc_words query)
              (PyStr.split query) 0 st' Hidf Hw) as (s & -> & Hs).
  exists s. split; [reflexivity|].
  replace (present_terms doc_words query)
    with (filter (fun t => default O (count_words doc_words !! t) <> O)
            (PyStr.split query)); [lra|].
  unfold present_terms. apply list_filter_iff. intros t.
  rewrite count_words_get, <- count_words_is_Some, count_words_lookup.
  destruct (decide (occurrences doc_words t = O)) as [->|Hne].
  - split; [contradiction|]. intros [? ?]; discriminate.
  - split; [intros _; eexists; reflexivity|intros _; exact Hne].
Qed.

Lemma score_document_bounds_witness :
  exists s,
    score_document "cat dog" (MkHit "d1" 1)
      (stored_searcher (Some "cat cat bird")) fixed_idf_calculator tt
    = (Ok ("d1"%string, s), tt)
    /\ 0 <= s <= 2.
Proof.
  destruct (score_document_bounds
              (fun term => if decide (term = "cat"%string) then 2 else 15 / 10)
              "cat dog" (MkHit "d1" 1) (stored_searcher (Some "cat cat bird"))
              fixed_idf_calculator (Some "cat cat bird") tt tt)
    as (s & Hrun & Hs).
  - intros term []. reflexivity.
  - intros t. destruct (decide _); lra.
  - reflexivity.
  - exists s. split; [exact Hrun|].
    replace (present_terms
               (PyStr.split (default EmptyString (Some "cat cat bird")))
               "cat dog") with ["cat"%string] in Hs
      by (vm_compute; reflexivity).
    cbn [map sum_R fold_right] in Hs.
    destruct (decide ("cat"%string = "cat"%string)); [lra|contradiction].
Defined.

(** X9.  The score depends on the words of a document and not on their
    order: two contents whose word lists are permutations of each other
    get the same result. *)
Theorem score_document_ignores_word_order {St : Type} (query : string)
    (hit : Hit) (searcher1 searcher2 : Searcher St)
    (idf_calculator : IdfCalculator St) (content1 content2 : string)
    (st st' : St) :
  Permutation (PyStr.split content1) (PyStr.split content2) ->
  doc_raw searcher1 (docid hit) st = (Ok (Some content1), st') ->
  doc_raw searcher2 (docid hit) st = (Ok (Some content2), st') ->
  score_document query hit searcher1 idf_calculator st
  = score_document query hit searcher2 idf_calculator st.
Proof.
  intros Hp H1 H2. unfold score_document. run_monad. rewrite H1, H2.
  change (default EmptyString (Some content1)) with content1.
  change (default EmptyString (Some content2)) with content2.
  assert (Hmap : count_words (PyStr.split content1)
                 = count_words (PyStr.split content2)).
  { apply map_eq. intros w. rewrite !count_words_lookup. unfold occurrences.
    rewrite (Permutation_count_occ string_dec) in Hp. rewrite (Hp w).
    reflexivity. }
  rewrite Hmap, (Permutation_length Hp). reflexivity.
Qed.

Lemma score_document_ignores_word_order_witness :
  score_document "cat dog" (MkHit "d1" 1)
    (stored_searcher (Some "cat dog cat")) fixed_idf_calculator tt
  = score_document "cat dog" (MkHit "d1" 1)
      (stored_searcher (Some "dog  cat cat")) fixed_idf_calculator tt.
Proof.
  apply (score_document_ignores_word_order "cat dog" (MkHit "d1" 1)
           (stored_searcher (Some "cat dog cat"))
           (stored_searcher (Some "dog  cat cat")) fixed_idf_calculator
           "cat dog cat" "dog  cat cat" tt tt);
    [|reflexivity|reflexivity].
  change (PyStr.split "cat dog cat") with ["cat"; "dog"; "cat"]%string.
  change (PyStr.split "dog  cat cat") with ["dog"; "cat"; "cat"]%string.
  apply perm_swap.
Defined.

(** ** Documents that share no token with the query *)

Lemma score_document_unrelated {St : Type} (query : string) (hit : Hit)
    (searcher : Searcher St) (idf_calculator : IdfCalculator St)
    (raw : option string) (st st' : St) :
  doc_raw searcher (docid hit) st = (Ok raw, st') ->
  Forall (fun term => term ∉ PyStr.split (default EmptyString raw))
         (PyStr.split query) ->
  score_document query hit searcher idf_calculator st
  = (Ok (docid hit, 0), st').
Proof.
  intros Hraw Hnone. unfold score_document. run_monad. rewrite Hraw.
  rewrite mean_query_tf_value.
  rewrite score_terms_all_absent; [reflexivity|].
  eapply Forall_impl; [exact Hnone|]. intros t Ht. cbn beta in Ht.
  rewrite count_words_get. unfold occurrences.
  apply count_occ_not_In. rewrite <- list_elem_of_In. exact Ht.
Qed.

Lemma descending_constant {A : Type} (key : A -> R) (k : R) (l : list A) :
  Forall (fun a => key a = k) l -> descending key l.
Proof.
  unfold descending.
  induction 1 as [|a l Ha Hl IH]; constructor; [exact IH|].
  eapply Forall_impl; [exact Hl|]. intros b Hb. cbn beta in Hb. lra.
Qed.

Lemma sort_reverse_constant {A : Type} (key : A -> R) (k : R) (l : list A) :
  Forall (fun a => key a = k) l -> sort_reverse key l = l.
Proof.
  intros H. symmetry. apply sort_reverse_characterised;
    [exact (descending_constant key k l H)|reflexivity].
Qed.

(** X10.  When no hit shares a token with the query, [rerank] gives every
    hit the score 0 and returns the hits in the order of the first-stage
    retrieval. *)
Theorem rerank_unrelated_keeps_baseline {St : Type} (query : string)
    (hits : list Hit) (searcher : Searcher St)
    (idf_calculator : IdfCalculator St) (st : St) :
  Forall (fun hit => unrelated searcher query (docid hit)) hits ->
  exists st',
    rerank query hits searcher idf_calculator st
    = (Ok (map (fun hit => (docid hit, 0)) hits), st').
Proof.
  intros Hall.
  assert (Hloop : forall doc_scores st, exists st',
    score_hits query hits searcher idf_calculator doc_scores st
    = (Ok (doc_scores ++ map (fun hit => (docid hit, 0)) hits), st')).
  { clear st. induction Hall as [|hit hits Hhit _ IH]; intros doc_scores st.
    - exists st. cbn. run_monad. rewrite app_nil_r. reflexivity.
    - destruct (Hhit st) as (raw & st1 & Hraw & Hnone).
      destruct (IH (doc_scores ++ [(docid hit, 0)]) st1) as (st' & Hrun).
      exists st'. cbn [score_hits]. run_monad.
      rewrite (score_document_unrelated _ _ _ _ _ _ _ Hraw Hnone), Hrun.
      rewrite <- app_assoc. reflexivity. }
  destruct (Hloop [] st) as (st' & Hrun). cbn [app] in Hrun.
  exists st'. unfold rerank. run_monad. rewrite Hrun.
  rewrite (sort_reverse_constant snd 0); [reflexivity|].
  apply Forall_forall. intros e He.
  apply list_elem_of_In, in_map_iff in He as (h & <- & _). reflexivity.
Qed.

Lemma rerank_unrelated_keeps_baseline_witness :
  exists st',
    rerank "cat dog" [MkHit "d1" 3; MkHit "d2" 9]
      (stored_searcher (Some "bird fish")) fixed_idf_calculator tt
    = (Ok [("d1"%string, 0); ("d2"%string, 0)], st').
Proof.
  apply (rerank_unrelated_keeps_baseline "cat dog"
           [MkHit "d1" 3; MkHit "d2" 9] (stored_searcher (Some "bird fish"))
           fixed_idf_calculator tt).
  assert (H : forall d, unrelated (stored_searcher (Some "bird fish"))
                          "cat dog" d).
  { intros d st. exists (Some "bird fish"%string), st.
    split; [reflexivity|].
    change (PyStr.split "cat dog") with ["cat"; "dog"]%string.
    change (PyStr.split (default EmptyString (Some "bird fish"%string)))
      with ["bird"; "fish"]%string.
    repeat constructor; intros Hin;
      repeat (apply elem_of_cons in Hin as [Hin|Hin]; [discriminate|]);
      inversion Hin. }
  repeat constructor; apply H.
Defined.

(** ** The weights the fallback calculator gives *)

Lemma idf_formula_order (total : Z) (df1 df2 : nat) :
  (0 < total + 1)%Z -> (df1 <= df2)%nat ->
  idf_formula total df2 <= idf_formula total df1.
Proof.
  intros Hn Hdf. unfold idf_formula.
  assert (H0 : 0 < IZR (total + 1)) by (apply IZR_lt; lia).
  assert (H1 : 0 < IZR (Z.of_nat df1 + 1)) by (apply IZR_lt; lia).
  assert (H12 : IZR (Z.of_nat df1 + 1) <= IZR (Z.of_nat df2 + 1))
    by (apply IZR_le; lia).
  apply ln_monotone; [apply Rdiv_lt_0_compat; lra|].
  unfold Rdiv. apply Rmult_le_compat_l; [lra|].
  apply Rinv_le_contravar; assumption.
Qed.

Lemma idf_formula_sign (total : Z) (df : nat) :
  (0 < total + 1)%Z ->
  (0 < idf_formula total df <-> (Z.of_nat df < total)%Z)
  /\ (idf_formula total df = 0 <-> Z.of_nat df = total).
Proof.
  intros Hn. unfold idf_formula.
  assert (H0 : 0 < IZR (total + 1)) by (apply IZR_lt; lia).
  assert (H1 : 0 < IZR (Z.of_nat df + 1)) by (apply IZR_lt; lia).
  set (q := IZR (total + 1) / IZR (Z.of_nat df + 1)).
  assert (Hq : 0 < q) by (apply Rdiv_lt_0_compat; assumption).
  assert (E : q * IZR (Z.of_nat df + 1) = IZR (total + 1))
    by (unfold q; field; lra).
  destruct (Rtotal_order q 1) as [Hlt|[Heq|Hgt]].
  - assert (ln q < 0) by (rewrite <- ln_1; apply ln_increasing; lra).
    assert (Hz : IZR (total + 1) < IZR (Z.of_nat df + 1)) by nra.
    apply lt_IZR in Hz. split; split; intros; try lra; lia.
  - assert (ln q = 0) by (rewrite Heq; apply ln_1).
    assert (Hz : IZR (total + 1) = IZR (Z.of_nat df + 1)) by nra.
    apply eq_IZR in Hz. split; split; intros; try lra; lia.
  - assert (0 < ln q) by (apply ln_positive; lra).
    assert (Hz : IZR (Z.of_nat df + 1) < IZR (total + 1)) by nra.
    apply lt_IZR in Hz. split; split; intros; try lra; lia.
Qed.

(** X11.  Of two terms looked up for the first time with the same
    document count [N >= 0], the one with no more hits gets no smaller a
    weight.  The weight is positive exactly when the number of hits is
    below [N], and 0 exactly when it equals [N]. *)
Theorem fallback_idf_orders_terms (ix : Index) (term1 term2 : string)
    (w1 w2 : world) (hits1 hits2 : list Hit) :
  term_cache w1 !! term1 = None -> term_cache w2 !! term2 = None ->
  doc_count w2 = doc_count w1 -> (0 < doc_count w1 + 1)%Z ->
  answer ix (calls w1) term1 100 = Ok hits1 ->
  answer ix (calls w2) term2 100 = Ok hits2 ->
  (length hits1 <= length hits2)%nat ->
  exists idf1 idf2 w1' w2',
    FallbackIDFCalculator.get_idf (LuceneSearcher ix) term1 w1 = (Ok idf1, w1')
    /\ FallbackIDFCalculator.get_idf (LuceneSearcher ix) term2 w2
       = (Ok idf2, w2')
    /\ idf2 <= idf1
    /\ (0 < idf1 <-> (Z.of_nat (length hits1) < doc_count w1)%Z)
    /\ (idf1 = 0 <-> Z.of_nat (length hits1) = doc_count w1).
Proof.
  intros Hc1 Hc2 Hn Hpos Ha1 Ha2 Hlen.
  rewrite (get_idf_miss _ _ _ Hc1), (get_idf_miss _ _ _ Hc2), Ha1, Ha2, Hn.
  destruct (decide (0 < doc_count w1 + 1)%Z); [|contradiction].
  do 4 eexists. split; [reflexivity|]. split; [reflexivity|].
  split; [apply idf_formula_order; assumption|].
  apply idf_formula_sign, Hpos.
Qed.

Lemma fallback_idf_orders_terms_witness :
  exists idf1 idf2 w1' w2',
    FallbackIDFCalculator.get_idf (LuceneSearcher two_document_index) "cat"
      (MkWorld [] 7 ∅) = (Ok idf1, w1')
    /\ FallbackIDFCalculator.get_idf (LuceneSearcher two_document_index) "dog"
      (MkWorld [] 7 ∅) = (Ok idf2, w2')
    /\ idf2 <= idf1 /\ 0 < idf1.
Proof.
  destruct (fallback_idf_orders_terms two_document_index "cat" "dog"
              (MkWorld [] 7 ∅) (MkWorld [] 7 ∅)
              (take 100 [MkHit "d1" (75 / 10); MkHit "d2" 3])
              (take 100 [MkHit "d1" (75 / 10); MkHit "d2" 3]))
    as (idf1 & idf2 & w1' & w2' & H1 & H2 & Hle & Hpos & _);
    try reflexivity; [cbn; lia..|].
  exists idf1, idf2, w1', w2'. repeat (split; [assumption|]).
  apply Hpos. cbn. lia.
Defined.

(** ** The searches the fallback calculator issues *)

Lemma get_idf_calls (ix : Index) (term : string) (w : world) :
  exists v w',
    FallbackIDFCalculator.get_idf (LuceneSearcher ix) term w = (Ok v, w')
    /\ doc_count w' = doc_count w
    /\ term_cache w ⊆ term_cache w'
    /\ match term_cache w !! term with
       | Some _ => calls w' = calls w
       | None =>
           calls w' = calls w ++ [(term, 100%nat)]
           /\ (always_answers ix -> (0 < doc_count w + 1)%Z ->
               is_Some (term_cache w' !! term))
       end.
Proof.
  destruct (get_idf_returns ix term w) as (v & w' & Hrun & Hn & Hsub).
  exists v, w'. repeat (split; [assumption|]).
  destruct (term_cache w !! term) as [c|] eqn:Hc.
  - rewrite (get_idf_cached _ _ _ _ Hc) in Hrun. congruence.
  - rewrite (get_idf_miss _ _ _ Hc) in Hrun.
    destruct (answer ix (calls w) term 100) as [hits|e] eqn:Ha.
    + destruct (decide (0 < doc_count w + 1)%Z) as [Hp|Hp];
        injection Hrun as <- <-; (split; [reflexivity|]).
      * intros _ _. cbn [term_cache stored]. rewrite lookup_insert_eq. eauto.
      * intros _ Hp'. contradiction.
    + injection Hrun as <- <-. split; [reflexivity|].
      intros Hans _. destruct (Hans (calls w) term 100%nat) as [hits Hh].
      congruence.
Qed.

(** X12.  The constructor issues exactly one search, [("the", 1)].  A
    sequence of lookups never raises and issues at most one search per
    lookup, each for 100 hits and for a looked-up term that was not in the
    cache at the start; when the index answers every search and the
    document count is not negative, no term is searched twice. *)
Theorem fallback_search_budget (ix : Index) (terms : list string)
    (w : world) :
  (forall w0, exists w1,
     FallbackIDFCalculator.__init__ (LuceneSearcher ix) w0 = (Ok tt, w1)
     /\ calls w1 = calls w0 ++ [("the"%string, 1%nat)])
  /\ exists idfs w' new,
       get_idf_all (LuceneSearcher ix) terms w = (Ok idfs, w')
       /\ calls w' = calls w ++ new
       /\ (length new <= length terms)%nat
       /\ Forall (fun call => call.2 = 100%nat /\ call.1 ∈ terms
                              /\ term_cache w !! call.1 = None) new
       /\ (always_answers ix -> (0 < doc_count w + 1)%Z ->
           NoDup (map fst new)).
Proof.
  split.
  { intros w0. unfold FallbackIDFCalculator.__init__. run_monad.
    rewrite estimate_doc_count_value. eexists. split; reflexivity. }
  revert w. induction terms as [|t terms IH]; intros w.
  - exists [], w, []. cbn. run_monad. rewrite app_nil_r.
    repeat split; try constructor.
  - destruct (get_idf_calls ix t w) as (v & w1 & Hrun & Hn & Hsub & Hcalls).
    destruct (IH w1) as (idfs & w' & new & Hrest & Hc & Hlen & Hall & Hnd).
    assert (Hall' : Forall (fun call => call.2 = 100%nat
                      /\ call.1 ∈ t :: terms
                      /\ term_cache w !! call.1 = None) new).
    { eapply Forall_impl; [exact Hall|]. intros call (H1 & H2 & H3).
      split; [exact H1|]. split; [apply elem_of_cons; right; exact H2|].
      eapply lookup_weaken_None; eassumption. }
    cbn [get_idf_all]. run_monad. rewrite Hrun, Hrest.
    destruct (term_cache w !! t) as [c0|] eqn:Hc0.
    + exists (v :: idfs), w', new. split; [reflexivity|].
      split; [congruence|]. split; [cbn; lia|]. split; [exact Hall'|].
      intros Ha Hp. apply Hnd; [exact Ha|lia].
    + destruct Hcalls as [Hcalls Hstored].
      exists (v :: idfs), w', ((t, 100%nat) :: new). split; [reflexivity|].
      split; [rewrite Hc, Hcalls, <- app_assoc; reflexivity|].
      split; [cbn; lia|]. split.
      * constructor; [|exact Hall']. cbn. split; [reflexivity|].
        split; [apply elem_of_cons; left; reflexivity|exact Hc0].
      * intros Ha Hp. cbn [map fst]. constructor; [|apply Hnd; [exact Ha|lia]].
        intros Hin. apply list_elem_of_In, in_map_iff in Hin
          as ([t' k] & Ht' & Hin). cbn in Ht'. subst t'.
        rewrite Forall_forall in Hall.
        apply list_elem_of_In in Hin.
        destruct (Hall _ Hin) as (_ & _ & Hnone). cbn in Hnone.
        destruct (Hstored Ha Hp) as [c1 Hc1]. congruence.
Qed.

(** ** Strings *)

Lemma string_append_cons (a : ascii) (s t : string) :
  String a s +:+ t = String a (s +:+ t).
Proof. reflexivity. Qed.

Lemma string_append_nil_l (s : string) : "" +:+ s = s.
Proof. reflexivity. Qed.

Lemma string_append_nil_r (s : string) : s +:+ "" = s.
Proof.
  induction s as [|a s IH]; [reflexivity|].
  rewrite string_append_cons, IH. reflexivity.
Qed.

Lemma string_append_assoc (s t u : string) : (s +:+ t) +:+ u = s +:+ t +:+ u.
Proof.
  induction s as [|a s IH]; [reflexivity|].
  rewrite !string_append_cons, IH. reflexivity.
Qed.

Lemma string_rev_app_append (s t u : string) :
  String.rev_app s (t +:+ u) = String.rev_app s t +:+ u.
Proof.
  revert t. induction s as [|a s IH]; intros t; cbn [String.rev_app];
    [reflexivity|].
  apply (IH (String a t)).
Qed.

Lemma string_rev_cons (a : ascii) (s : string) :
  String.rev (String a s) = String.rev s +:+ String a "".
Proof.
  unfold String.rev. cbn [String.rev_app].
  apply (string_rev_app_append s "" (String a "")).
Qed.

Lemma string_rev_append (s t : string) :
  String.rev (s +:+ t) = String.rev t +:+ String.rev s.
Proof.
  induction s as [|a s IH].
  - rewrite string_append_nil_l. symmetry. apply string_append_nil_r.
  - rewrite string_append_cons, !string_rev_cons, IH. apply string_append_assoc.
Qed.

Lemma string_rev_involutive (s : string) : String.rev (String.rev s) = s.
Proof.
  induction s as [|a s IH]; [reflexivity|].
  rewrite string_rev_cons, string_rev_append, IH. reflexivity.
Qed.

(** *** [strip] *)


Lemma lstrip_append (s t : string) :
  PyStr.lstrip (s +:+ t)
  = match PyStr.lstrip s with
    | EmptyString => PyStr.lstrip t
    | String _ _ => PyStr.lstrip s +:+ t
    end.
Proof.
  induction s as [|a s IH].
  - rewrite string_append_nil_l. cbn [PyStr.lstrip]. reflexivity.
  - rewrite string_append_cons. cbn [PyStr.lstrip].
    destruct (PyStr.is_space a); [exact IH|reflexivity].
Qed.

Lemma lstrip_fixed (a : ascii) (s : string) :
  PyStr.is_space a = false -> PyStr.lstrip (String a s) = String a s.
Proof. intros E. cbn [PyStr.lstrip]. rewrite E. reflexivity. Qed.


(** A string that ends with a character that is no white space. *)
Lemma rstrip_fixed (s : string) (a : ascii) :
  PyStr.is_space a = false ->
  PyStr.rstrip (s +:+ String a "") = s +:+ String a "".
Proof.
  intros E. unfold PyStr.rstrip.
  rewrite string_rev_append.
  change (String.rev (String a "")) with (String a "").
  rewrite string_append_cons, string_append_nil_l.
  rewrite (lstrip_fixed _ _ E), string_rev_cons, string_rev_involutive.
  reflexivity.
Qed.



(** ** The topic parser on any file *)











(** ** Well-formed topic files *)

Lemma readlines_go_line (l cur s : string) :
  contains "010" l = false ->
  PyStr.readlines_go cur (l +:+ s)
  = PyStr.readlines_go (String.rev l +:+ cur) s.
Proof.
  revert cur. induction l as [|a l IH]; intros cur Hl; [reflexivity|].
  cbn [contains] in Hl. apply orb_false_elim in Hl as [Ha Hl].
  rewrite string_append_cons. cbn [PyStr.readlines_go]. rewrite Ha.
  rewrite (IH _ Hl), string_rev_cons, string_append_assoc. reflexivity.
Qed.

Lemma readlines_unlines (ls : list string) :
  Forall (fun l => contains "010" l = false) ls ->
  PyStr.readlines (unlines ls) = map (fun l => l +:+ LF) ls.
Proof.
  unfold PyStr.readlines. induction 1 as [|l ls Hl Hls IH]; [reflexivity|].
  cbn [unlines fold_right map]. rewrite (readlines_go_line _ _ _ Hl).
  unfold LF at 1. rewrite string_append_cons, string_append_nil_l.
  cbn [PyStr.readlines_go]. change (Ascii.eqb "010" "010") with true.
  cbn match.
  rewrite string_append_nil_r, string_rev_cons, string_rev_involutive.
  f_equal. exact IH.
Qed.

Lemma rstrip_append_space (s : string) (a : ascii) :
  PyStr.is_space a = true -> PyStr.rstrip (s +:+ String a "") = PyStr.rstrip s.
Proof.
  intros E. unfold PyStr.rstrip. rewrite string_rev_append.
  change (String.rev (String a "")) with (String a "").
  rewrite string_append_cons, string_append_nil_l. cbn [PyStr.lstrip].
  rewrite E.
  reflexivity.
Qed.

Lemma strip_line_feed (l : string) : PyStr.strip (l +:+ LF) = PyStr.strip l.
Proof.
  unfold PyStr.strip. rewrite lstrip_append.
  destruct (PyStr.lstrip l) as [|a u] eqn:E; [reflexivity|].
  apply rstrip_append_space. reflexivity.
Qed.

Lemma strip_between (a b : ascii) (p s q : string) :
  PyStr.is_space a = false -> PyStr.is_space b = false ->
  PyStr.strip (String a p +:+ s +:+ q +:+ String b "")
  = String a p +:+ s +:+ q +:+ String b "".
Proof.
  intros Ha Hb. unfold PyStr.strip. rewrite string_append_cons.
  rewrite (lstrip_fixed _ _ Ha), <- string_append_cons.
  rewrite <- (string_append_assoc s), <- (string_append_assoc (String a p)).
  apply rstrip_fixed, Hb.
Qed.

Lemma startswith_append (p s : string) : PyStr.startswith p (p +:+ s) = true.
Proof.
  unfold PyStr.startswith. induction p as [|a p IH].
  - destruct s; reflexivity.
  - rewrite string_append_cons. cbn [String.prefix].
    destruct (ascii_dec a a); [exact IH|congruence].
Qed.

Lemma replace_go_passes (old new s tail : string) :
  contains "<" s = false ->
  PyStr.replace_go (String "<" old) new O (s +:+ tail)
  = s +:+ PyStr.replace_go (String "<" old) new O tail.
Proof.
  induction s as [|a s IH]; intros Hs; [reflexivity|].
  cbn [contains] in Hs. apply orb_false_elim in Hs as [Ha Hs].
  rewrite !string_append_cons. cbn [PyStr.replace_go String.prefix].
  destruct (ascii_dec "<" a) as [<-|_]; [discriminate|].
  rewrite (IH Hs). reflexivity.
Qed.

Lemma num_line_identifier (i : string) :
  contains "<" i = false ->
  PyStr.replace "</num>" ""
    (PyStr.replace "<num>" "" ("<num>" +:+ i +:+ "</num>")) = i.
Proof.
  intros Hi. unfold PyStr.replace.
  assert (H1 : PyStr.replace_go "<num>" "" 0 ("<num>" +:+ i +:+ "</num>")
               = PyStr.replace_go "<num>" "" 0 (i +:+ "</num>")).
  { destruct i; reflexivity. }
  rewrite H1, (replace_go_passes "num>" "" i "</num>" Hi).
  change (PyStr.replace_go "<num>" "" 0 "</num>") with "</num>".
  rewrite (replace_go_passes "/num>" "" i "</num>" Hi).
  change (PyStr.replace_go "</num>" "" 0 "</num>") with "".
  apply string_append_nil_r.
Qed.

Lemma strip_title_text (t : string) :
  PyStr.strip (t +:+ "</title>") = PyStr.lstrip t +:+ "</title>".
Proof.
  unfold PyStr.strip.
  assert (Hl : PyStr.lstrip (t +:+ "</title>")
               = PyStr.lstrip t +:+ "</title>").
  { rewrite lstrip_append. destruct (PyStr.lstrip t); reflexivity. }
  rewrite Hl.
  change "</title>" with ("</title" +:+ String ">" "").
  rewrite <- string_append_assoc. apply rstrip_fixed. reflexivity.
Qed.

Lemma parse_line_other (st : parser_state) (line : string) :
  other_line line = true -> parse_line st (line +:+ LF) = st.
Proof.
  unfold other_line. intros H.
  apply andb_prop in H as [H Htop]. apply andb_prop in H as [H Htitle].
  apply andb_prop in H as [_ Hnum].
  apply negb_true_iff in Hnum, Htitle, Htop.
  unfold parse_line. rewrite strip_line_feed, Hnum, Htitle, Htop. reflexivity.
Qed.

Lemma parse_line_num (st : parser_state) (i : string) :
  contains "<" i = false ->
  parse_line st (("<num>" +:+ i +:+ "</num>") +:+ LF)
  = MkParser (queries st) (Some (PyStr.strip i)) (title st).
Proof.
  intros Hi. unfold parse_line. rewrite strip_line_feed.
  rewrite (strip_between "<" ">" "num>" i "</num" eq_refl eq_refl
           : PyStr.strip ("<num>" +:+ i +:+ "</num>")
             = "<num>" +:+ i +:+ "</num>").
  rewrite startswith_append, (num_line_identifier i Hi). reflexivity.
Qed.

Lemma parse_line_title (st : parser_state) (t : string) :
  parse_line st (("<title>" +:+ t +:+ "</title>") +:+ LF)
  = MkParser (queries st) (qid st)
      (Some (PyStr.lstrip t +:+ "</title>")).
Proof.
  unfold parse_line. rewrite strip_line_feed.
  rewrite (strip_between "<" ">" "title>" t "</title" eq_refl eq_refl
           : PyStr.strip ("<title>" +:+ t +:+ "</title>")
             = "<title>" +:+ t +:+ "</title>").
  rewrite startswith_append.
  change (PyStr.startswith "<num>" ("<title>" +:+ t +:+ "</title>"))
    with false.
  cbn match.
  change (PyStr.drop (String.length "<title>")
            ("<title>" +:+ t +:+ "</title>")) with (t +:+ "</title>").
  rewrite strip_title_text. reflexivity.
Qed.

Lemma parse_line_end (d : list (string * string)) (i t : string) :
  i <> EmptyString -> t <> EmptyString ->
  parse_line (MkParser d (Some i) (Some t)) ("</top>" +:+ LF)
  = MkParser (dict_set i t d) None None.
Proof.
  intros Hi Ht. apply parse_line_end_marker_complete; try assumption;
    reflexivity.
Qed.

Lemma parse_lines_others (rest : list string) (st : parser_state) :
  forallb other_line rest = true ->
  fold_left parse_line (map (fun l => l +:+ LF) rest) st = st.
Proof.
  induction rest as [|l rest IH]; intros H; [reflexivity|].
  cbn [forallb] in H. apply andb_prop in H as [Hl H].
  cbn [map fold_left]. rewrite (parse_line_other _ _ Hl). apply IH, H.
Qed.

Lemma one_line_no_feed (s : string) :
  one_line s = true -> contains "010" s = false.
Proof.
  unfold one_line. intros H. apply andb_prop in H as [H _].
  apply negb_true_iff, H.
Qed.

Lemma contains_append (a : ascii) (s t : string) :
  contains a (s +:+ t) = contains a s || contains a t.
Proof.
  induction s as [|b s IH]; [reflexivity|].
  rewrite string_append_cons. cbn [contains]. rewrite IH. apply orb_assoc.
Qed.

Lemma well_formed_fields (t : Topic) :
  well_formed t = true ->
  one_line (topic_num t) = true
  /\ contains "<" (topic_num t) = false
  /\ PyStr.strip (topic_num t) <> EmptyString
  /\ one_line (topic_title t) = true
  /\ forallb other_line (topic_rest t) = true.
Proof.
  unfold well_formed. intros H.
  apply andb_prop in H as [H Hrest]. apply andb_prop in H as [H Htitle].
  apply andb_prop in H as [H Hne]. apply andb_prop in H as [Hone Hlt].
  apply negb_true_iff in Hlt, Hne. apply String.eqb_neq in Hne.
  repeat split; assumption.
Qed.

Lemma topic_lines_one_line (t : Topic) :
  well_formed t = true ->
  Forall (fun l => contains "010" l = false) (topic_lines t).
Proof.
  intros H. destruct (well_formed_fields t H)
    as (Hnum & _ & _ & Htitle & Hrest).
  apply one_line_no_feed in Hnum, Htitle.
  unfold topic_lines. repeat apply Forall_cons_2.
  - reflexivity.
  - rewrite !contains_append, Hnum. reflexivity.
  - rewrite !contains_append, Htitle. reflexivity.
  - apply Forall_app. split; [|repeat constructor].
    apply Forall_forall. intros l Hl.
    rewrite forallb_forall in Hrest.
    apply list_elem_of_In, Hrest in Hl. unfold other_line in Hl.
    apply andb_prop in Hl as [Hl _]. apply andb_prop in Hl as [Hl _].
    apply andb_prop in Hl as [Hl _]. apply one_line_no_feed, Hl.
Qed.

Lemma parse_topic (t : Topic) (d : list (string * string)) :
  well_formed t = true ->
  fold_left parse_line (map (fun l => l +:+ LF) (topic_lines t))
    (MkParser d None None)
  = MkParser (dict_set (parsed_entry t).1 (parsed_entry t).2 d) None None.
Proof.
  intros H. destruct (well_formed_fields t H)
    as (_ & Hlt & Hne & _ & Hrest).
  unfold topic_lines. cbn [app map fold_left].
  rewrite (parse_line_other _ "<top>" eq_refl).
  rewrite (parse_line_num _ _ Hlt), parse_line_title.
  cbn [queries qid title]. rewrite map_app, fold_left_app.
  rewrite (parse_lines_others _ _ Hrest). cbn [map fold_left].
  unfold parsed_entry. cbn [fst snd].
  apply parse_line_end; [exact Hne|].
  destruct (PyStr.lstrip (topic_title t)); intros Heq;
    rewrite ?string_append_cons, ?string_append_nil_l in Heq; discriminate Heq.
Qed.

Lemma parse_topics (topics : list Topic) (d : list (string * string)) :
  Forall (fun t => well_formed t = true) topics ->
  fold_left parse_line
    (map (fun l => l +:+ LF) (concat (map topic_lines topics)))
    (MkParser d None None)
  = MkParser (fold_left (fun d t =>
                           dict_set (parsed_entry t).1 (parsed_entry t).2 d)
                        topics d)
             None None.
Proof.
  intros H. revert d. induction H as [|t topics Ht Hts IH]; intros d;
    [reflexivity|].
  cbn [map concat]. rewrite map_app, fold_left_app, (parse_topic t d Ht).
  apply IH.
Qed.

Lemma dict_set_fresh {V : Type} (k : string) (v : V) (d : list (string * V)) :
  k ∉ map fst d -> dict_set k v d = d ++ [(k, v)].
Proof.
  induction d as [|[k' v'] d IH]; intros Hk; [reflexivity|].
  cbn [dict_set]. cbn [map fst] in Hk. apply not_elem_of_cons in Hk as [Hne Hk].
  destruct (decide (k' = k)); [congruence|]. rewrite (IH Hk). reflexivity.
Qed.

Lemma dict_set_all_fresh {V : Type} (entries d : list (string * V)) :
  NoDup (map fst (d ++ entries)) ->
  fold_left (fun d e => dict_set e.1 e.2 d) entries d = d ++ entries.
Proof.
  revert d. induction entries as [|[k v] entries IH]; intros d Hd.
  - rewrite app_nil_r. reflexivity.
  - cbn [fold_left fst snd]. rewrite dict_set_fresh.
    + rewrite IH, <- app_assoc; [reflexivity|].
      rewrite <- app_assoc. exact Hd.
    + rewrite map_app in Hd. apply NoDup_app in Hd as (_ & Hd & _).
      intros Hin. apply (Hd k Hin). cbn. apply elem_of_cons. left.
      reflexivity.
Qed.

Lemma fold_left_through_map {A B C : Type} (f : A -> B -> A) (g : C -> B)
    (l : list C) (a : A) :
  fold_left f (map g l) a = fold_left (fun a x => f a (g x)) l a.
Proof.
  revert a. induction l as [|x l IH]; intros a; [reflexivity|].
  cbn [map fold_left]. apply IH.
Qed.

(** X14.  A file rendered from a list of well-formed topics is parsed
    into the assignments [queries[num.strip()] = title.lstrip() + "</title>"],
    made in the order of the topics: the closing tag of the title stays in
    the query text.  When the stripped identifiers are pairwise distinct,
    the mapping lists the topics one by one, in order. *)
Theorem parse_fire_queries_round_trip (topics : list Topic) :
  Forall (fun t => well_formed t = true) topics ->
  parse_fire_queries (render topics)
  = fold_left (fun d t => dict_set (parsed_entry t).1 (parsed_entry t).2 d)
              topics []
  /\ (NoDup (map (fun t => PyStr.strip (topic_num t)) topics) ->
      parse_fire_queries (render topics) = map parsed_entry topics).
Proof.
  intros H.
  assert (Hparse : parse_fire_queries (render topics)
    = fold_left (fun d t => dict_set (parsed_entry t).1 (parsed_entry t).2 d)
        topics []).
  { unfold parse_fire_queries, parse_lines, render.
    rewrite readlines_unlines.
    - rewrite (parse_topics topics [] H). reflexivity.
    - apply Forall_concat, Forall_forall. intros ls Hls.
      apply list_elem_of_In, in_map_iff in Hls as (t & <- & Ht).
      apply topic_lines_one_line.
      rewrite Forall_forall in H. apply H, list_elem_of_In, Ht. }
  split; [exact Hparse|]. intros Hnd. rewrite Hparse.
  rewrite <- (fold_left_through_map (fun d e => dict_set e.1 e.2 d)
                parsed_entry topics []).
  rewrite (dict_set_all_fresh (map parsed_entry topics) []); [reflexivity|].
  cbn [app]. rewrite map_map. exact Hnd.
Qed.

Lemma parse_fire_queries_round_trip_witness :
  parse_fire_queries
    (render [MkTopic "126" "Swine flu vaccine"
               ["<desc>Vaccines against swine flu</desc>"; ""];
             MkTopic " 127 " "  Cricket" []])
  = [("126", "Swine flu vaccine</title>"); ("127", "Cricket</title>")].
Proof.
  assert (Hwf : Forall (fun t => well_formed t = true)
                  [MkTopic "126" "Swine flu vaccine"
                     ["<desc>Vaccines against swine flu</desc>"; ""];
                   MkTopic " 127 " "  Cricket" []]).
  { repeat apply Forall_cons_2; [reflexivity|reflexivity|constructor]. }
  destruct (parse_fire_queries_round_trip _ Hwf) as [_ H].
  rewrite H; [reflexivity|].
  change (NoDup ["126"; "127"]).
  apply NoDup_cons. split; [|apply NoDup_singleton].
  intros Hin. apply list_elem_of_singleton in Hin. discriminate Hin.
Defined.

(** ** The loop over the queries *)

Lemma enumerate_ranks {A : Type} (l : list A) (start : nat) :
  map fst (enumerate l start) = seq start (length l).
Proof.
  revert start. induction l as [|x l IH]; intros start; [reflexivity|].
  cbn. rewrite IH. reflexivity.
Qed.

Lemma enumerate_items {A : Type} (l : list A) (start : nat) :
  map snd (enumerate l start) = l.
Proof.
  revert start. induction l as [|x l IH]; intros start; [reflexivity|].
  cbn. rewrite IH. reflexivity.
Qed.

Lemma enumerate_length {A : Type} (l : list A) (start : nat) :
  length (enumerate l start) = length l.
Proof.
  rewrite <- (length_map snd), enumerate_items. reflexivity.
Qed.

Lemma print_ranking_ranks (qid : string) (reranked : list (string * R)) :
  map line_rank (print_ranking qid reranked)
  = seq 1 (length (print_ranking qid reranked)).
Proof.
  unfold print_ranking. rewrite length_map, enumerate_length, map_map.
  cbn [line_rank]. apply enumerate_ranks.
Qed.

Lemma print_ranking_entries (qid : string) (reranked : list (string * R)) :
  map (fun l => (line_docid l, line_score l)) (print_ranking qid reranked)
  = take 1000 reranked.
Proof.
  unfold print_ranking. rewrite map_map. cbn [line_docid line_score].
  rewrite <- (enumerate_items (take 1000 reranked) 1) at 2.
  apply map_ext. intros [rank [d s]]. reflexivity.
Qed.

Lemma print_ranking_length (qid : string) (reranked : list (string * R)) :
  length (print_ranking qid reranked) = Nat.min 1000 (length reranked).
Proof.
  rewrite <- (length_map (fun l => (line_docid l, line_score l))),
    print_ranking_entries.
  apply length_take.
Qed.

Lemma print_ranking_qid (qid : string) (reranked : list (string * R)) :
  Forall (fun l => line_qid l = qid) (print_ranking qid reranked).
Proof.
  unfold print_ranking. apply Forall_forall. intros l Hl.
  apply list_elem_of_In, in_map_iff in Hl as (entry & <- & _). reflexivity.
Qed.

Lemma descending_through_map {A B : Type} (f : A -> B) (key : B -> R)
    (key' : A -> R) (l : list A) :
  (forall a, key (f a) = key' a) ->
  descending key (map f l) <-> descending key' l.
Proof.
  intros Hk. unfold descending. induction l as [|a l IH]; cbn [map].
  - split; constructor.
  - split; intros Hs; inversion Hs as [|? ? Hs' Hall]; subst;
      (constructor; [apply IH, Hs'|]).
    + apply Forall_forall. intros b Hb. rewrite Forall_forall in Hall.
      rewrite <- !Hk. apply Hall.
      apply list_elem_of_In, in_map, list_elem_of_In, Hb.
    + apply Forall_forall. intros b Hb.
      apply list_elem_of_In, in_map_iff in Hb as (a' & <- & Ha').
      rewrite Forall_forall in Hall. rewrite !Hk.
      apply Hall, list_elem_of_In, Ha'.
Qed.

Lemma descending_take {A : Type} (key : A -> R) (n : nat) (l : list A) :
  descending key l -> descending key (take n l).
Proof.
  unfold descending. intros Hs. revert n.
  induction Hs as [|a l Hs IH Hall]; intros [|n]; cbn [take];
    try constructor.
  - apply IH.
  - apply Forall_forall. intros b Hb. rewrite Forall_forall in Hall.
    apply Hall. exact (subseteq_take n l b Hb).
Qed.


Lemma rerank_returns {St : Type} (query : string) (hits : list Hit)
    (searcher : Searcher St) (idf_calculator : IdfCalculator St) (st : St) :
  exists doc_scores st',
    rerank query hits searcher idf_calculator st
    = (Ok (sort_reverse snd doc_scores), st')
    /\ sublist (map fst doc_scores) (map docid hits).
Proof.
  destruct (score_hits_total query searcher idf_calculator hits [] st)
    as (more & st' & Hrun & Hsub).
  exists more, st'. split; [|exact Hsub].
  unfold rerank. run_monad. rewrite Hrun. reflexivity.
Qed.

Section MainFacts.
Context {St : Type}.
Variables (searcher : Searcher St) (idf_calculator : IdfCalculator St).

Lemma process_query_after_search (qid query_text : string)
    (hits : list Hit) (st st1 : St) :
  search searcher query_text 2000 st = (Ok hits, st1) ->
  exists doc_scores st',
    rerank query_text hits searcher idf_calculator st1
    = (Ok (sort_reverse snd doc_scores), st')
    /\ sublist (map fst doc_scores) (map docid hits)
    /\ process_query searcher idf_calculator qid query_text st
       = (Ok (print_ranking qid (sort_reverse snd doc_scores)), st').
Proof.
  intros Hsearch.
  destruct (rerank_returns query_text hits searcher idf_calculator st1)
    as (doc_scores & st' & Hrun & Hsub).
  exists doc_scores, st'. split; [exact Hrun|]. split; [exact Hsub|].
  unfold process_query. run_monad. rewrite Hsearch, Hrun. reflexivity.
Qed.

Lemma process_query_search_raises (qid query_text : string) (e : pyexn)
    (st st1 : St) :
  search searcher query_text 2000 st = (Raise e, st1) ->
  process_query searcher idf_calculator qid query_text st = (Ok [], st1).
Proof.
  intros Hsearch. unfold process_query. run_monad. rewrite Hsearch.
  reflexivity.
Qed.

Lemma print_ranking_descending (qid : string) (l : list (string * R)) :
  descending snd l -> descending line_score (print_ranking qid l).
Proof.
  intros Hd.
  apply (descending_through_map (fun l => (line_docid l, line_score l))
           snd line_score); [reflexivity|].
  rewrite print_ranking_entries. apply descending_take, Hd.
Qed.

Lemma print_ranking_docids (qid : string) (l : list (string * R)) :
  map line_docid (print_ranking qid l) = map fst (take 1000 l).
Proof.
  rewrite <- (print_ranking_entries qid), map_map. reflexivity.
Qed.

(** X15.  The body of the loop over the queries never raises.  The lines
    it prints carry the query's identifier, the ranks 1, 2, ... in order,
    and scores in descending order; they are at most 1000 and at most as
    many as the hits of the search, and their document identifiers are
    drawn from the hits without repetition of a hit.  When the search
    raises, nothing is printed and the state is as the search left it. *)
Theorem process_query_block (qid query_text : string) (st : St) :
  exists lines st',
    process_query searcher idf_calculator qid query_text st = (Ok lines, st')
    /\ map line_rank lines = seq 1 (length lines)
    /\ (length lines <= 1000)%nat
    /\ Forall (fun l => line_qid l = qid) lines
    /\ descending line_score lines
    /\ match search searcher query_text 2000 st with
       | (Ok hits, _) =>
           map line_docid lines ⊆+ map docid hits
           /\ (length lines <= length hits)%nat
       | (Raise _, st1) => lines = [] /\ st' = st1
       end.
Proof.
  destruct (search searcher query_text 2000 st) as [[hits|e] st1] eqn:Hs.
  - destruct (process_query_after_search qid query_text hits st st1 Hs)
      as (doc_scores & st' & _ & Hsub & Hrun).
    exists (print_ranking qid (sort_reverse snd doc_scores)), st'.
    split; [exact Hrun|]. split; [apply print_ranking_ranks|].
    split; [rewrite print_ranking_length; lia|].
    split; [apply print_ranking_qid|].
    split; [apply print_ranking_descending, sort_reverse_descending|].
    assert (Hm : map line_docid
                   (print_ranking qid (sort_reverse snd doc_scores))
                 ⊆+ map docid hits).
    { rewrite print_ranking_docids.
      transitivity (map fst (sort_reverse snd doc_scores)).
      - change (fst <$> take 1000 (sort_reverse snd doc_scores)
                ⊆+ fst <$> sort_reverse snd doc_scores).
        apply fmap_submseteq, submseteq_take.
      - transitivity (map fst doc_scores).
        + apply Permutation_submseteq, Permutation_map, sort_reverse_perm.
        + apply sublist_submseteq, Hsub. }
    split; [exact Hm|].
    apply submseteq_length in Hm. rewrite !length_map in Hm. exact Hm.
  - exists [], st1.
    split; [apply (process_query_search_raises qid query_text e), Hs|].
    split; [reflexivity|]. split; [cbn; lia|].
    split; [constructor|]. split; [constructor|]. split; reflexivity.
Qed.

End MainFacts.


(** ** The whole run *)









(** ** The searches of a run with the fallback calculator *)






Lemma logs_search (P : string * nat -> Prop) (ix : Index) (q : string)
    (k : nat) :
  P (q, k) -> logs P (search (LuceneSearcher ix) q k).
Proof.
  intros HP w r w' [= _ <-]. split; [split; reflexivity|].
  exists [(q, k)]. split; [reflexivity|]. constructor; [exact HP|constructor].
Qed.


Section RunWithFallback.
Variable ix : Index.
Let searcher := LuceneSearcher ix.
Let idf_calculator := FallbackIDFCalculator.calculator searcher.








End RunWithFallback.

